(** * calltop: the eBPF probes of [ebpf.c] and [usdt.c]

    A shallow embedding of the two BPF programs of calltop and of the
    parts of the BPF runtime they call (the hash map and four helpers),
    followed by the properties of the entry/exit accounting.

    - fixed-width integers are [Z] with the wrap-around written out;
    - [struct key_t] is the flat sequence of its bytes, which is what the
      BPF hash map hashes and compares;
    - the BPF hash map is a [gmap] from key bytes to [value_t] together
      with the size given in [BPF_HASH];
    - a pointer returned by a map lookup points into the map, so a store
      through it is an in-place replacement of the value under that key. *)

From Stdlib Require Import ZArith Lia String Ascii.
From stdpp Require Import base option list gmap fin_maps.

Local Open Scope Z_scope.

(** ** Machine integers *)

Definition u32 (z : Z) : Z := z mod 2 ^ 32.
Definition u64 (z : Z) : Z := z mod 2 ^ 64.

(** A byte is a [Z]; little-endian layout of a 32-bit field. *)
Definition byte_of (z : Z) : Z := z mod 256.

Definition le32 (z : Z) : list Z :=
  [ byte_of z; byte_of (z / 2 ^ 8); byte_of (z / 2 ^ 16); byte_of (z / 2 ^ 24) ].

(** ** C strings and buffers *)

(** The bytes of a C string: everything before the first NUL. *)
Fixpoint c_str (s : list Z) : list Z :=
  match s with
  | [] => []
  | c :: s' => if c =? 0 then [] else c :: c_str s'
  end.

Definition bytes_of_string (s : string) : list Z :=
  List.map (fun c => Z.of_N (N_of_ascii c)) (list_ascii_of_string s).

(** [write_bytes off bs buf] stores [bs] at offset [off] of [buf]. A byte
    that falls past the end of [buf] is not part of [buf] and is lost to
    the model. *)
Definition write_bytes (off : nat) (bs buf : list Z) : list Z :=
  list_inserts off bs buf.

Definition read_bytes (off len : nat) (buf : list Z) : list Z :=
  take len (drop off buf).

(** [strcpy(dst, src)] of the C library: the string and its terminator are
    copied, whatever the room at [dst]. *)
Definition strcpy (dst : nat) (src : list Z) (buf : list Z) : list Z :=
  write_bytes dst (c_str src ++ [0]) buf.

(** ** [struct value_t] *)

Record value_t : Type := mkValue {
  counter : Z;     (* u32 *)
  startTime : Z;   (* u64, used as a temporary value *)
  cumLat : Z       (* u64, cumulated latency *)
}.

(** ** The context of one probe firing *)

(** What the kernel hands to a probe: the clock, the current task, the
    tracepoint argument [args->id], and, for USDT probes, the second
    marker argument with the user memory it points into ([None] where
    reading the string faults). *)
Record ctx_t : Type := mkCtx {
  ktime_ns : Z;
  task_comm : list Z;
  pid_tgid : Z;
  args_id : Z;
  usdt_arg2 : Z;
  user_str : Z -> option (list Z)
}.

(** ** BPF helpers *)

Definition bpf_ktime_get_ns (ctx : ctx_t) : Z := u64 (ktime_ns ctx).

Definition bpf_get_current_pid_tgid (ctx : ctx_t) : Z := u64 (pid_tgid ctx).

(** Modelled from the spec: the kernel helper
    [bpf_get_current_comm(buf, size)], which is not in the sources
    ("bounded string, truncated", 3). It is [strncpy] of the task name,
    which pads with NUL up to [size], then [buf[size - 1] = 0]. *)
Definition bpf_get_current_comm (ctx : ctx_t) (dst size : nat)
    (buf : list Z) : list Z :=
  write_bytes dst
    (<[Nat.pred size := 0]> (take size (c_str (task_comm ctx) ++ replicate size 0)))
    buf.

Definition bpf_usdt_readarg2 (ctx : ctx_t) : Z := usdt_arg2 ctx.

Definition EFAULT : Z := 14.

(** Modelled from the spec: the kernel helper
    [bpf_probe_read_str(dst, size, unsafe_ptr)], which is not in the
    sources ("a foreign-memory read that can fail", 4.4). At most
    [size - 1] bytes of the string and a terminator are copied and the
    copied length, terminator included, is returned; when the read faults
    the result is negative and [dst] is cleared. The pair is the returned
    [int] and the bytes stored at [dst]. *)
Definition bpf_probe_read_str (ctx : ctx_t) (size : nat) (addr : Z)
    : Z * list Z :=
  match user_str ctx addr with
  | Some s =>
      let body := take (Nat.pred size) (c_str s) in
      (Z.of_nat (length body) + 1, body ++ [0])
  | None => (- EFAULT, replicate size 0)
  end.

(** ** [BPF_HASH] *)

Abbreviation key_t := (list Z) (only parsing).
Abbreviation table := (gmap (list Z) value_t) (only parsing).

Section BPF_HASH.
(** The size argument of [BPF_HASH]. *)
Variable max_entries : Z.

Definition has_room (m : table) : bool := Z.of_nat (size m) <? max_entries.

(** Modelled from the spec: [map.lookup(&key)] of BCC's [BPF_HASH]. *)
Definition map_lookup (m : table) (key : key_t) : option value_t := m !! key.

(** Modelled from the spec: [map.update(&key, leaf)] of BCC's [BPF_HASH],
    which is not in the sources ("replaces the stored value", 4.2). It is
    [bpf_map_update_elem] with [BPF_ANY]: an existing key is overwritten,
    a new key needs a free slot, and without one the map is left as it
    is. *)
Definition map_update (m : table) (key : key_t) (leaf : value_t) : table :=
  match m !! key with
  | Some _ => <[key := leaf]> m
  | None => if has_room m then <[key := leaf]> m else m
  end.

(** Modelled from the spec: the insertion inside [lookup_or_try_init],
    [bpf_map_update_elem] with [BPF_NOEXIST] ("if the table has spare
    capacity, inserts", 4.2). *)
Definition map_insert (m : table) (key : key_t) (leaf : value_t) : table :=
  match m !! key with
  | Some _ => m
  | None => if has_room m then <[key := leaf]> m else m
  end.

(** Modelled from the spec: [map.lookup_or_try_init(&key, &init)] of
    BCC's [BPF_HASH], which is not in the sources ([get_or_init], 4.2).
    Look the key up; when it is missing, try to insert [init] under it
    and look it up again. The result is the map afterwards and the leaf
    found, [None] for a null pointer. *)
Definition lookup_or_try_init (m : table) (key : key_t) (init : value_t)
    : table * option value_t :=
  match m !! key with
  | Some leaf => (m, Some leaf)
  | None => let m' := map_insert m key init in (m', m' !! key)
  end.

(** Modelled from the spec: [map.lookup_or_init(&key, &init)] of BCC's
    [BPF_HASH], which is not in the sources ([get_or_init], 4.2). It is
    the same lookup; in addition its expansion leaves the calling probe
    with [return 0] when the second lookup finds nothing, so a caller
    sees [None] only as the end of the probe. *)
Definition lookup_or_init (m : table) (key : key_t) (init : value_t)
    : table * option value_t :=
  lookup_or_try_init m key init.

(** A store through a pointer obtained from a lookup of [key]. *)
Definition store (m : table) (key : key_t) (leaf : value_t) : table :=
  <[key := leaf]> m.
End BPF_HASH.

(** ** [ebpf.c]: named-function probes and syscall tracepoints *)

Module Ebpf.

(** [struct key_t { char fname[64]; char comm[64]; u32 pid; u32 sysid; }] *)
Definition fname_off : nat := 0.
Definition comm_off : nat := 64.
Definition pid_off : nat := 128.
Definition sysid_off : nat := 132.
Definition key_size : nat := 136.

(** [BPF_HASH(map, struct key_t, struct value_t, 1024*32)] *)
Definition max_entries : Z := 1024 * 32.

Definition do_enter (ctx : ctx_t) (fname : list Z) (m : table) : table :=
  let key := replicate key_size 0 in
  let valZero := mkValue 0 0 0 in
  let stime := bpf_ktime_get_ns ctx in
  let key := strcpy fname_off fname key in
  let key := bpf_get_current_comm ctx comm_off 64 key in
  let key := write_bytes pid_off (le32 (u32 (bpf_get_current_pid_tgid ctx))) key in
  match lookup_or_init max_entries m key valZero with
  | (m, None) => m
  | (m, Some pValue) =>
      let pValue := mkValue (u32 (counter pValue + 1)) (startTime pValue) (cumLat pValue) in
      let pValue := mkValue (counter pValue) stime (cumLat pValue) in
      let m := store m key pValue in
      map_update max_entries m key pValue
  end.

Definition do_return (ctx : ctx_t) (fname : list Z) (m : table) : table :=
  let key := replicate key_size 0 in
  let endTime := bpf_ktime_get_ns ctx in
  let key := strcpy fname_off fname key in
  let key := bpf_get_current_comm ctx comm_off 64 key in
  let key := write_bytes pid_off (le32 (u32 (bpf_get_current_pid_tgid ctx))) key in
  match map_lookup m key with
  | None => m
  | Some pValue =>
      if startTime pValue =? 0 then m else
      let pValue :=
        mkValue (counter pValue) (startTime pValue)
                (u64 (cumLat pValue + u64 (endTime - startTime pValue))) in
      let m := store m key pValue in
      map_update max_entries m key pValue
  end.

(** [TRACEPOINT_PROBE(raw_syscalls, sys_enter)]. The null test on the
    result of [lookup_or_init] is commented out in the source; the
    [None] branch is the [return 0] inside [lookup_or_init] itself. *)
Definition sys_enter (ctx : ctx_t) (m : table) : table :=
  let key := replicate key_size 0 in
  let valZero := mkValue 0 0 0 in
  let stime := bpf_ktime_get_ns ctx in
  let key := write_bytes sysid_off (le32 (u32 (args_id ctx))) key in
  let key := bpf_get_current_comm ctx comm_off 64 key in
  let key := write_bytes pid_off (le32 (u32 (bpf_get_current_pid_tgid ctx))) key in
  match lookup_or_init max_entries m key valZero with
  | (m, None) => m
  | (m, Some pValue) =>
      let pValue := mkValue (u32 (counter pValue + 1)) (startTime pValue) (cumLat pValue) in
      let pValue := mkValue (counter pValue) stime (cumLat pValue) in
      let m := store m key pValue in
      map_update max_entries m key pValue
  end.

(** [TRACEPOINT_PROBE(raw_syscalls, sys_exit)] *)
Definition sys_exit (ctx : ctx_t) (m : table) : table :=
  let key := replicate key_size 0 in
  let endTime := bpf_ktime_get_ns ctx in
  let key := write_bytes sysid_off (le32 (u32 (args_id ctx))) key in
  let key := bpf_get_current_comm ctx comm_off 64 key in
  let key := write_bytes pid_off (le32 (u32 (bpf_get_current_pid_tgid ctx))) key in
  match map_lookup m key with
  | None => m
  | Some pValue =>
      let pValue :=
        mkValue (counter pValue) (startTime pValue)
                (u64 (cumLat pValue + u64 (endTime - startTime pValue))) in
      let m := store m key pValue in
      map_update max_entries m key pValue
  end.

(** The key built by [do_enter] and [do_return]. *)
Definition function_key (ctx : ctx_t) (fname : list Z) : key_t :=
  write_bytes pid_off (le32 (u32 (bpf_get_current_pid_tgid ctx)))
    (bpf_get_current_comm ctx comm_off 64
       (strcpy fname_off fname (replicate key_size 0))).

(** The key built by [sys_enter] and [sys_exit]. *)
Definition syscall_key (ctx : ctx_t) : key_t :=
  write_bytes pid_off (le32 (u32 (bpf_get_current_pid_tgid ctx)))
    (bpf_get_current_comm ctx comm_off 64
       (write_bytes sysid_off (le32 (u32 (args_id ctx))) (replicate key_size 0))).

(** The fields of a key. *)
Definition key_fname (key : key_t) : list Z := read_bytes fname_off 64 key.

End Ebpf.

(** ** [usdt.c]: user-space marker probes *)

Module Usdt.

(** [struct key_t { char fname[64]; char comm[64]; u32 pid; }] *)
Definition fname_off : nat := 0.
Definition comm_off : nat := 64.
Definition pid_off : nat := 128.
Definition key_size : nat := 132.

(** [BPF_HASH(map, struct key_t, struct value_t, 1024)] *)
Definition max_entries : Z := 1024.

(** [struct key_t key = {"garbage_collector","",0}] *)
Definition gc_key_init : key_t :=
  write_bytes fname_off (bytes_of_string "garbage_collector") (replicate key_size 0).

Definition usdt_gc_start (ctx : ctx_t) (m : table) : table :=
  let key := gc_key_init in
  let valZero := mkValue 0 0 0 in
  let stime := bpf_ktime_get_ns ctx in
  let key := bpf_get_current_comm ctx comm_off 64 key in
  let key := write_bytes pid_off (le32 (u32 (bpf_get_current_pid_tgid ctx))) key in
  match lookup_or_try_init max_entries m key valZero with
  | (m, None) => m
  | (m, Some pValue) =>
      let pValue := mkValue (u32 (counter pValue + 1)) (startTime pValue) (cumLat pValue) in
      let pValue := mkValue (counter pValue) stime (cumLat pValue) in
      let m := store m key pValue in
      map_update max_entries m key pValue
  end.

Definition usdt_gc_done (ctx : ctx_t) (m : table) : table :=
  let key := gc_key_init in
  let defaultVal := mkValue 1 0 0 in
  let endTime := bpf_ktime_get_ns ctx in
  let key := bpf_get_current_comm ctx comm_off 64 key in
  let key := write_bytes pid_off (le32 (u32 (bpf_get_current_pid_tgid ctx))) key in
  let defaultVal := mkValue (counter defaultVal) endTime (cumLat defaultVal) in
  match lookup_or_try_init max_entries m key defaultVal with
  | (m, None) => m
  | (m, Some pValue) =>
      let pValue :=
        mkValue (counter pValue) (startTime pValue)
                (u64 (cumLat pValue + u64 (endTime - startTime pValue))) in
      let m := store m key pValue in
      map_update max_entries m key pValue
  end.

(** [ret] is declared [u32]: the value returned by [bpf_probe_read_str]
    is converted to 32 bits unsigned before it is compared with 0. *)
Definition usdt_enter (ctx : ctx_t) (m : table) : table :=
  let key := replicate key_size 0 in
  let valZero := mkValue 0 0 0 in
  let stime := bpf_ktime_get_ns ctx in
  let addr := bpf_usdt_readarg2 ctx in
  let r := bpf_probe_read_str ctx 64 addr in
  let key := write_bytes fname_off (snd r) key in
  let ret := u32 (fst r) in
  if ret <? 0 then m else
  let key := bpf_get_current_comm ctx comm_off 64 key in
  let key := write_bytes pid_off (le32 (u32 (bpf_get_current_pid_tgid ctx))) key in
  match lookup_or_try_init max_entries m key valZero with
  | (m, None) => m
  | (m, Some pValue) =>
      let pValue := mkValue (u32 (counter pValue + 1)) (startTime pValue) (cumLat pValue) in
      let pValue := mkValue (counter pValue) stime (cumLat pValue) in
      let m := store m key pValue in
      map_update max_entries m key pValue
  end.

Definition usdt_return (ctx : ctx_t) (m : table) : table :=
  let key := replicate key_size 0 in
  let defaultVal := mkValue 1 0 0 in
  let endTime := bpf_ktime_get_ns ctx in
  let addr := bpf_usdt_readarg2 ctx in
  let r := bpf_probe_read_str ctx 64 addr in
  let key := write_bytes fname_off (snd r) key in
  let ret := u32 (fst r) in
  if ret <? 0 then m else
  let key := bpf_get_current_comm ctx comm_off 64 key in
  let key := write_bytes pid_off (le32 (u32 (bpf_get_current_pid_tgid ctx))) key in
  let defaultVal := mkValue (counter defaultVal) endTime (cumLat defaultVal) in
  match lookup_or_try_init max_entries m key defaultVal with
  | (m, None) => m
  | (m, Some pValue) =>
      let pValue :=
        mkValue (counter pValue) (startTime pValue)
                (u64 (cumLat pValue + u64 (endTime - startTime pValue))) in
      let m := store m key pValue in
      map_update max_entries m key pValue
  end.

(** The key built by [usdt_gc_start] and [usdt_gc_done]. *)
Definition gc_key (ctx : ctx_t) : key_t :=
  write_bytes pid_off (le32 (u32 (bpf_get_current_pid_tgid ctx)))
    (bpf_get_current_comm ctx comm_off 64 gc_key_init).

(** The key built by [usdt_enter] and [usdt_return]. *)
Definition marker_key (ctx : ctx_t) : key_t :=
  write_bytes pid_off (le32 (u32 (bpf_get_current_pid_tgid ctx)))
    (bpf_get_current_comm ctx comm_off 64
       (write_bytes fname_off (snd (bpf_probe_read_str ctx 64 (bpf_usdt_readarg2 ctx)))
          (replicate key_size 0))).

Definition key_fname (key : key_t) : list Z := read_bytes fname_off 64 key.

End Usdt.

(** ** Probe firings *)

(** The entry points the attachment layer hooks, one constructor each. *)
Inductive probe : Type :=
| DoEnter (fname : list Z)
| DoReturn (fname : list Z)
| SysEnter
| SysExit
| UsdtGcStart
| UsdtGcDone
| UsdtEnter
| UsdtReturn.

(** One firing of a probe on the map of its program. *)
Definition fire (p : probe) (ctx : ctx_t) (m : table) : table :=
  match p with
  | DoEnter fname => Ebpf.do_enter ctx fname m
  | DoReturn fname => Ebpf.do_return ctx fname m
  | SysEnter => Ebpf.sys_enter ctx m
  | SysExit => Ebpf.sys_exit ctx m
  | UsdtGcStart => Usdt.usdt_gc_start ctx m
  | UsdtGcDone => Usdt.usdt_gc_done ctx m
  | UsdtEnter => Usdt.usdt_enter ctx m
  | UsdtReturn => Usdt.usdt_return ctx m
  end.

Definition is_entry (p : probe) : bool :=
  match p with
  | DoEnter _ | SysEnter | UsdtGcStart | UsdtEnter => true
  | _ => false
  end.

Definition is_exit (p : probe) : bool := negb (is_entry p).

(** The exit probes of [usdt.c], which look up with a default value. *)
Definition is_usdt_exit (p : probe) : bool :=
  match p with
  | UsdtGcDone | UsdtReturn => true
  | _ => false
  end.

(** The key a probe builds in a context. *)
Definition key_of (p : probe) (ctx : ctx_t) : key_t :=
  match p with
  | DoEnter fname | DoReturn fname => Ebpf.function_key ctx fname
  | SysEnter | SysExit => Ebpf.syscall_key ctx
  | UsdtGcStart | UsdtGcDone => Usdt.gc_key ctx
  | UsdtEnter | UsdtReturn => Usdt.marker_key ctx
  end.

(** The size of the map a probe works on. *)
Definition map_size (p : probe) : Z :=
  match p with
  | DoEnter _ | DoReturn _ | SysEnter | SysExit => Ebpf.max_entries
  | _ => Usdt.max_entries
  end.

(** The timestamp a probe takes. *)
Definition now (ctx : ctx_t) : Z := bpf_ktime_get_ns ctx.

(** A run: the probes fire one after the other. *)
Definition event : Type := probe * ctx_t.

Definition run (m : table) (evs : list event) : table :=
  fold_left (fun m e => fire (fst e) (snd e) m) evs m.

(** The two updates of a leaf. *)
Definition bump (t : Z) (v : value_t) : value_t :=
  mkValue (u32 (counter v + 1)) t (cumLat v).

Definition accum (t : Z) (v : value_t) : value_t :=
  mkValue (counter v) (startTime v) (u64 (cumLat v + u64 (t - startTime v))).

(** ** Sample contexts and names *)

Definition sample_ctx (t pid : Z) : ctx_t :=
  mkCtx t (bytes_of_string "bash") pid 0 4096
        (fun _ => Some (bytes_of_string "parse")).

(** A context whose marker argument cannot be read. *)
Definition fault_ctx (t pid : Z) : ctx_t :=
  mkCtx t (bytes_of_string "bash") pid 0 4096 (fun _ => None).

Definition name_A : list Z := bytes_of_string "A".

(** A function name of 70 bytes. *)
Definition long_name : list Z := replicate 70 97.

(** A map of [usdt.c] filled by 1024 processes, one garbage-collector
    key each. *)
Definition crowded_table : table :=
  list_to_map
    (List.map (fun i => (key_of UsdtGcStart (sample_ctx 1 (Z.of_nat i)), mkValue 1 1 0))
              (seq 0 1024)).

(** The exits that accumulate: the key is there and, for [do_return],
    its start time is not the sentinel. *)
Definition accumulates (p : probe) (v : value_t) : bool :=
  match p with
  | DoReturn _ => negb (startTime v =? 0)
  | _ => true
  end.

(** The latency a key has accumulated so far, 0 for a key with no entry. *)
Definition latency_of (m : table) (k : key_t) : Z :=
  from_option cumLat 0 (m !! k).

(** The firing of [e] in [m] does not wrap: an entry finds the counter of
    its key below [2 ^ 32 - 1]; an exit that accumulates is not stamped
    before the stored start time and its sum fits 64 bits. *)
Definition step_fits (m : table) (e : event) : Prop :=
  match m !! key_of (fst e) (snd e) with
  | None => True
  | Some v =>
      if is_entry (fst e) then counter v + 1 < 2 ^ 32
      else if accumulates (fst e) v
      then startTime v <= now (snd e) /\
           cumLat v + (now (snd e) - startTime v) < 2 ^ 64
      else True
  end.

Fixpoint run_fits (m : table) (evs : list event) : Prop :=
  match evs with
  | [] => True
  | e :: evs' => step_fits m e /\ run_fits (fire (fst e) (snd e) m) evs'
  end.

(** ** Reading a key back *)

(** The value of a 32-bit little-endian field. *)
Definition le32_value (bs : list Z) : Z :=
  match bs with
  | [b0; b1; b2; b3] => b0 + 2 ^ 8 * b1 + 2 ^ 16 * b2 + 2 ^ 24 * b3
  | _ => 0
  end.

(** [key.comm] and [key.pid] sit at the same offsets in both programs;
    [key.sysid] is a field of [ebpf.c] only. *)
Definition comm_field (key : key_t) : list Z := read_bytes 64 64 key.
Definition pid_field (key : key_t) : Z := le32_value (read_bytes 128 4 key).
Definition sysid_field (key : key_t) : Z := le32_value (read_bytes 132 4 key).

(** ** One firing, summarised *)

(** The probes whose lookup may insert: the entries, and the exits of
    [usdt.c]. *)
Definition creates (p : probe) : bool := is_entry p || is_usdt_exit p.

(** The leaf a firing writes under its key, given the leaf it finds and
    whether the map has a free slot; [None] when it writes nothing. *)
Definition next_leaf (p : probe) (ctx : ctx_t) (old : option value_t)
    (room : bool) : option value_t :=
  match old with
  | Some v =>
      if is_entry p then Some (bump (now ctx) v)
      else if accumulates p v then Some (accum (now ctx) v)
      else None
  | None =>
      if creates p && room then Some (mkValue 1 (now ctx) 0) else None
  end.

(** The events of a run that build the key [k]. *)
Definition on_key (k : key_t) (e : event) : bool :=
  bool_decide (key_of (fst e) (snd e) = k).

(** A sequence of calls: each pair is the context of an entry and the
    context of its exit. *)
Definition pair_events (pe px : probe) (calls : list (ctx_t * ctx_t))
    : list event :=
  flat_map (fun cc => [ (pe, fst cc); (px, snd cc) ]) calls.

Definition total_latency (calls : list (ctx_t * ctx_t)) : Z :=
  fold_right (fun cc acc => (now (snd cc) - now (fst cc)) + acc) 0 calls.

(** A map of [usdt.c] with one free slot left. *)
Definition nearly_full_table : table :=
  list_to_map
    (List.map (fun i => (key_of UsdtGcStart (sample_ctx 1 (Z.of_nat i)), mkValue 1 1 0))
              (seq 0 1023)).

(** ** Proof tools *)

Ltac open_handler :=
  unfold lookup_or_init, lookup_or_try_init, map_insert, map_update,
    map_lookup, store.

Ltac layout :=
  unfold Ebpf.fname_off, Ebpf.comm_off, Ebpf.pid_off, Ebpf.sysid_off,
    Ebpf.key_size, Usdt.fname_off, Usdt.comm_off, Usdt.pid_off, Usdt.key_size;
  lia.

(** ** The handlers in closed form *)

Lemma u32_not_negative (z : Z) : (u32 z <? 0) = false.
Proof.
  apply Z.ltb_ge. unfold u32. apply Z.mod_pos_bound. lia.
Qed.

Lemma u64_range (z : Z) : 0 <= u64 z < 2 ^ 64.
Proof. unfold u64. apply Z.mod_pos_bound. lia. Qed.

Lemma u64_small (z : Z) : 0 <= z < 2 ^ 64 -> u64 z = z.
Proof. intros Hz. unfold u64. apply Z.mod_small. exact Hz. Qed.

Lemma u64_add_inner (a b : Z) : u64 (a + u64 b) = u64 (a + b).
Proof. unfold u64. apply Zplus_mod_idemp_r. Qed.

Lemma entry_body (cap : Z) (m : table) (k : key_t) (t : Z) :
  (let (m', leaf) := lookup_or_try_init cap m k (mkValue 0 0 0) in
   match leaf with
   | None => m'
   | Some v =>
       let v1 := mkValue (u32 (counter v + 1)) (startTime v) (cumLat v) in
       let v2 := mkValue (counter v1) t (cumLat v1) in
       map_update cap (store m' k v2) k v2
   end) =
  match m !! k with
  | Some v => <[k := bump t v]> m
  | None => if has_room cap m then <[k := bump t (mkValue 0 0 0)]> m else m
  end.
Proof.
  open_handler. unfold bump.
  destruct (m !! k) as [v|] eqn:Hk; simpl.
  - rewrite lookup_insert_eq. apply insert_insert_eq.
  - destruct (has_room cap m); simpl.
    + rewrite lookup_insert_eq. simpl. rewrite lookup_insert_eq.
      rewrite !insert_insert_eq. reflexivity.
    + rewrite Hk. reflexivity.
Qed.

Lemma exit_body (cap : Z) (m : table) (k : key_t) (t : Z) (init : value_t) :
  (let (m', leaf) := lookup_or_try_init cap m k init in
   match leaf with
   | None => m'
   | Some v =>
       let v1 := mkValue (counter v) (startTime v)
                         (u64 (cumLat v + u64 (t - startTime v))) in
       map_update cap (store m' k v1) k v1
   end) =
  match m !! k with
  | Some v => <[k := accum t v]> m
  | None => if has_room cap m then <[k := accum t init]> m else m
  end.
Proof.
  open_handler. unfold accum.
  destruct (m !! k) as [v|] eqn:Hk; simpl.
  - rewrite lookup_insert_eq. apply insert_insert_eq.
  - destruct (has_room cap m); simpl.
    + rewrite lookup_insert_eq. simpl. rewrite lookup_insert_eq.
      rewrite !insert_insert_eq. reflexivity.
    + rewrite Hk. reflexivity.
Qed.

Lemma lookup_exit_body (cap : Z) (m : table) (k : key_t) (v1 : value_t) :
  m !! k <> None -> map_update cap (store m k v1) k v1 = <[k := v1]> m.
Proof.
  intros _. open_handler. rewrite lookup_insert_eq. apply insert_insert_eq.
Qed.

(** An entry probe counts the call and records its start. *)
Lemma fire_entry (p : probe) (ctx : ctx_t) (m : table) :
  is_entry p = true ->
  fire p ctx m =
  match m !! key_of p ctx with
  | Some v => <[key_of p ctx := bump (now ctx) v]> m
  | None =>
      if has_room (map_size p) m
      then <[key_of p ctx := bump (now ctx) (mkValue 0 0 0)]> m
      else m
  end.
Proof.
  destruct p; simpl; try discriminate; intros _.
  - apply (entry_body Ebpf.max_entries m (Ebpf.function_key ctx fname)).
  - apply (entry_body Ebpf.max_entries m (Ebpf.syscall_key ctx)).
  - apply (entry_body Usdt.max_entries m (Usdt.gc_key ctx)).
  - unfold Usdt.usdt_enter. cbv zeta. rewrite u32_not_negative.
    apply (entry_body Usdt.max_entries m (Usdt.marker_key ctx)).
Qed.

(** The exit probes of [usdt.c]. *)
Lemma fire_usdt_exit (p : probe) (ctx : ctx_t) (m : table) :
  is_usdt_exit p = true ->
  fire p ctx m =
  match m !! key_of p ctx with
  | Some v => <[key_of p ctx := accum (now ctx) v]> m
  | None =>
      if has_room (map_size p) m
      then <[key_of p ctx := accum (now ctx) (mkValue 1 (now ctx) 0)]> m
      else m
  end.
Proof.
  destruct p; simpl; try discriminate; intros _.
  - apply (exit_body Usdt.max_entries m (Usdt.gc_key ctx)).
  - unfold Usdt.usdt_return. cbv zeta. rewrite u32_not_negative.
    apply (exit_body Usdt.max_entries m (Usdt.marker_key ctx)).
Qed.

(** [sys_exit] *)
Lemma fire_sys_exit (ctx : ctx_t) (m : table) :
  fire SysExit ctx m =
  match m !! key_of SysExit ctx with
  | Some v => <[key_of SysExit ctx := accum (now ctx) v]> m
  | None => m
  end.
Proof.
  simpl. unfold Ebpf.sys_exit. cbv zeta. fold (Ebpf.syscall_key ctx).
  unfold map_lookup.
  destruct (m !! Ebpf.syscall_key ctx) as [v|] eqn:Hk; [|reflexivity].
  apply lookup_exit_body. congruence.
Qed.

(** [do_return] *)
Lemma fire_do_return (fname : list Z) (ctx : ctx_t) (m : table) :
  fire (DoReturn fname) ctx m =
  match m !! key_of (DoReturn fname) ctx with
  | Some v =>
      if startTime v =? 0 then m
      else <[key_of (DoReturn fname) ctx := accum (now ctx) v]> m
  | None => m
  end.
Proof.
  simpl. unfold Ebpf.do_return. cbv zeta. fold (Ebpf.function_key ctx fname).
  unfold map_lookup.
  destruct (m !! Ebpf.function_key ctx fname) as [v|] eqn:Hk; [|reflexivity].
  destruct (startTime v =? 0); [reflexivity|].
  apply lookup_exit_body. congruence.
Qed.

(** Every exit probe is one of the three shapes above. *)
Lemma exit_cases (p : probe) :
  is_exit p = true ->
  is_usdt_exit p = true \/ p = SysExit \/ exists fname, p = DoReturn fname.
Proof.
  destruct p; simpl; try discriminate; intros _; eauto.
Qed.

(** ** Frame: one firing touches one key *)

Lemma fire_other (p : probe) (ctx : ctx_t) (m : table) (k : key_t) :
  k <> key_of p ctx -> fire p ctx m !! k = m !! k.
Proof.
  intros Hne.
  destruct (is_entry p) eqn:Hp.
  - rewrite fire_entry by exact Hp.
    destruct (m !! key_of p ctx); [|destruct (has_room _ m)];
      try reflexivity; apply lookup_insert_ne; congruence.
  - destruct (exit_cases p) as [Hu|[->|[fname ->]]].
    + unfold is_exit. rewrite Hp. reflexivity.
    + rewrite fire_usdt_exit by exact Hu.
      destruct (m !! key_of p ctx); [|destruct (has_room _ m)];
        try reflexivity; apply lookup_insert_ne; congruence.
    + rewrite fire_sys_exit.
      destruct (m !! key_of SysExit ctx); [|reflexivity].
      apply lookup_insert_ne; congruence.
    + rewrite fire_do_return.
      destruct (m !! key_of (DoReturn fname) ctx) as [v|]; [|reflexivity].
      destruct (startTime v =? 0); [reflexivity|].
      apply lookup_insert_ne; congruence.
Qed.

Lemma run_nil (m : table) : run m [] = m.
Proof. reflexivity. Qed.

Lemma run_cons (m : table) (e : event) (evs : list event) :
  run m (e :: evs) = run (fire (fst e) (snd e) m) evs.
Proof. reflexivity. Qed.

Lemma run_app (m : table) (evs1 evs2 : list event) :
  run m (evs1 ++ evs2) = run (run m evs1) evs2.
Proof. unfold run. apply fold_left_app. Qed.

Lemma run_other (m : table) (evs : list event) (k : key_t) :
  Forall (fun e => key_of (fst e) (snd e) <> k) evs ->
  run m evs !! k = m !! k.
Proof.
  intros Hall. revert m.
  induction Hall as [|e evs He _ IH]; intros m; [reflexivity|].
  rewrite run_cons, IH. apply fire_other. congruence.
Qed.

(** What a firing leaves under its own key. *)
Lemma fire_entry_lookup (p : probe) (ctx : ctx_t) (m : table) :
  is_entry p = true ->
  fire p ctx m !! key_of p ctx =
  match m !! key_of p ctx with
  | Some v => Some (bump (now ctx) v)
  | None =>
      if has_room (map_size p) m then Some (mkValue 1 (now ctx) 0) else None
  end.
Proof.
  intros Hp. rewrite fire_entry by exact Hp.
  destruct (m !! key_of p ctx) as [v|] eqn:Hk.
  - apply lookup_insert_eq.
  - destruct (has_room _ m); [apply lookup_insert_eq | exact Hk].
Qed.

Lemma accum_fresh (t : Z) : accum t (mkValue 1 t 0) = mkValue 1 t 0.
Proof.
  unfold accum; simpl. rewrite Z.sub_diag. reflexivity.
Qed.

Lemma fire_exit_lookup (p : probe) (ctx : ctx_t) (m : table) (v : value_t) :
  is_exit p = true ->
  m !! key_of p ctx = Some v ->
  fire p ctx m !! key_of p ctx =
  Some (match p with
        | DoReturn _ => if startTime v =? 0 then v else accum (now ctx) v
        | _ => accum (now ctx) v
        end).
Proof.
  intros Hp Hk.
  destruct (exit_cases p Hp) as [Hu|[->|[fname ->]]].
  - rewrite fire_usdt_exit by exact Hu. rewrite Hk, lookup_insert_eq.
    destruct p; try discriminate; reflexivity.
  - rewrite fire_sys_exit, Hk. apply lookup_insert_eq.
  - rewrite fire_do_return, Hk.
    destruct (startTime v =? 0); [exact Hk | apply lookup_insert_eq].
Qed.

Lemma has_room_empty (cap : Z) : 0 < cap -> has_room cap (∅ : table) = true.
Proof.
  intros Hcap. unfold has_room. rewrite map_size_empty. apply Z.ltb_lt. exact Hcap.
Qed.

Lemma has_room_empty_probe (p : probe) : has_room (map_size p) (∅ : table) = true.
Proof. apply has_room_empty. destruct p; reflexivity. Qed.

(** ** Unmatched exits *)

(** C1, as stated, fails: [do_return] on a key without an entry creates
    nothing, here on the empty map. *)
Lemma unmatched_exit_cex :
  ~ (forall (p : probe) (ctx : ctx_t) (m : table),
       is_exit p = true ->
       m !! key_of p ctx = None ->
       has_room (map_size p) m = true ->
       fire p ctx m !! key_of p ctx = Some (mkValue 1 (now ctx) 0)).
Proof.
  intros Hclaim.
  specialize (Hclaim (DoReturn name_A) (sample_ctx 150 7) ∅ eq_refl
                     (lookup_empty _) (has_room_empty_probe _)).
  rewrite fire_do_return, lookup_empty in Hclaim.
  rewrite lookup_empty in Hclaim. discriminate Hclaim.
Qed.

(** C1 (amended): an exit whose key has no entry creates the entry
    [counter = 1, start_time = now, cumulative_latency = 0] exactly when
    the probe is [usdt_return] or [usdt_gc_done] and the map has a free
    slot, and touches nothing else; every other exit on such a key
    ([do_return], [sys_exit], a full map) leaves the map as it is. *)
Theorem unmatched_exit_baseline (p : probe) (ctx : ctx_t) (m : table) :
  is_exit p = true ->
  m !! key_of p ctx = None ->
  fire p ctx m =
  if is_usdt_exit p && has_room (map_size p) m
  then <[key_of p ctx := mkValue 1 (now ctx) 0]> m
  else m.
Proof.
  intros Hp Hk.
  destruct (exit_cases p Hp) as [Hu|[->|[fname ->]]].
  - rewrite fire_usdt_exit by exact Hu. rewrite Hk, Hu, accum_fresh. reflexivity.
  - rewrite fire_sys_exit, Hk. reflexivity.
  - rewrite fire_do_return, Hk. reflexivity.
Qed.

(** [usdt_return] at 150 on the empty map. *)
Lemma unmatched_exit_baseline_witness :
  is_exit UsdtReturn = true /\
  (∅ : table) !! key_of UsdtReturn (sample_ctx 150 7) = None /\
  fire UsdtReturn (sample_ctx 150 7) ∅ =
  <[key_of UsdtReturn (sample_ctx 150 7) := mkValue 1 150 0]> ∅.
Proof.
  split; [reflexivity|]. split; [apply lookup_empty|].
  rewrite (unmatched_exit_baseline UsdtReturn (sample_ctx 150 7) ∅ eq_refl
             (lookup_empty _)).
  rewrite has_room_empty_probe. reflexivity.
Defined.

(** ** The start-time sentinel *)

(** C2, as stated, fails: [sys_exit], [usdt_gc_done] and [usdt_return] do
    not test [startTime] and add the whole timestamp to [cumLat]. *)
Lemma sentinel_skip_cex :
  let ctx := sample_ctx 150 7 in
  let v := mkValue 1 0 0 in
  (fire SysExit ctx {[ key_of SysExit ctx := v ]} !! key_of SysExit ctx
     = Some (mkValue 1 0 150)) /\
  (fire UsdtGcDone ctx {[ key_of UsdtGcDone ctx := v ]} !! key_of UsdtGcDone ctx
     = Some (mkValue 1 0 150)) /\
  (fire UsdtReturn ctx {[ key_of UsdtReturn ctx := v ]} !! key_of UsdtReturn ctx
     = Some (mkValue 1 0 150)).
Proof.
  cbv zeta. split; [|split].
  - rewrite (fire_exit_lookup SysExit _ _ (mkValue 1 0 0) eq_refl
               (lookup_singleton_eq _ _)). reflexivity.
  - rewrite (fire_exit_lookup UsdtGcDone _ _ (mkValue 1 0 0) eq_refl
               (lookup_singleton_eq _ _)). reflexivity.
  - rewrite (fire_exit_lookup UsdtReturn _ _ (mkValue 1 0 0) eq_refl
               (lookup_singleton_eq _ _)). reflexivity.
Qed.

(** C2 (amended): [do_return] on a key whose stored [startTime] is 0
    skips the accumulation: the map is left as it is, so [cumLat] is
    unchanged and the record is still there. *)
Theorem do_return_skips_sentinel (fname : list Z) (ctx : ctx_t) (m : table)
    (v : value_t) :
  m !! key_of (DoReturn fname) ctx = Some v ->
  startTime v = 0 ->
  fire (DoReturn fname) ctx m = m /\
  fire (DoReturn fname) ctx m !! key_of (DoReturn fname) ctx = Some v.
Proof.
  intros Hk Hs.
  assert (Hfire : fire (DoReturn fname) ctx m = m).
  { rewrite fire_do_return, Hk, Hs. reflexivity. }
  rewrite Hfire. split; [reflexivity | exact Hk].
Qed.

(** [do_return] at 150 on a key stored with start time 0. *)
Lemma do_return_skips_sentinel_witness :
  let ctx := sample_ctx 150 7 in
  let k := key_of (DoReturn name_A) ctx in
  let m : table := {[ k := mkValue 3 0 20 ]} in
  m !! k = Some (mkValue 3 0 20) /\
  fire (DoReturn name_A) ctx m = m /\
  fire (DoReturn name_A) ctx m !! k = Some (mkValue 3 0 20).
Proof.
  cbv zeta. split; [apply lookup_singleton_eq|].
  apply (do_return_skips_sentinel name_A (sample_ctx 150 7) _ (mkValue 3 0 20)).
  - apply lookup_singleton_eq.
  - reflexivity.
Defined.

(** ** Exits leave the counter and the start time alone *)

(** C10: an exit that accumulates leaves [counter] and [startTime] of the
    key as they were, so a second exit on the key, with no entry in
    between, accumulates a second delta against the same start time. *)
Theorem exit_keeps_counter_and_start (p1 p2 : probe) (ctx1 ctx2 : ctx_t)
    (m : table) (k : key_t) (v : value_t) :
  is_exit p1 = true -> is_exit p2 = true ->
  key_of p1 ctx1 = k -> key_of p2 ctx2 = k ->
  m !! k = Some v ->
  accumulates p1 v = true -> accumulates p2 v = true ->
  fire p1 ctx1 m !! k =
    Some (mkValue (counter v) (startTime v)
            (u64 (cumLat v + u64 (now ctx1 - startTime v)))) /\
  fire p2 ctx2 (fire p1 ctx1 m) !! k =
    Some (mkValue (counter v) (startTime v)
            (u64 (u64 (cumLat v + u64 (now ctx1 - startTime v))
                  + u64 (now ctx2 - startTime v)))).
Proof.
  intros Hp1 Hp2 Hk1 Hk2 Hm Ha1 Ha2. subst k.
  assert (H1 : fire p1 ctx1 m !! key_of p1 ctx1 = Some (accum (now ctx1) v)).
  { rewrite (fire_exit_lookup p1 ctx1 m v Hp1 Hm).
    destruct p1; try reflexivity. simpl in Ha1.
    destruct (startTime v =? 0); [discriminate | reflexivity]. }
  split; [exact H1|].
  rewrite <- Hk2 in H1. rewrite <- Hk2.
  rewrite (fire_exit_lookup p2 ctx2 _ _ Hp2 H1).
  destruct p2; try reflexivity. simpl in Ha2. simpl.
  destruct (startTime v =? 0); [discriminate | reflexivity].
Qed.

(** Start at 100, exits at 150 and at 180: 50, then 50 + 80. *)
Lemma exit_keeps_counter_and_start_witness :
  let c1 := sample_ctx 150 7 in
  let c2 := sample_ctx 180 7 in
  let k := key_of (DoReturn name_A) c1 in
  let m : table := {[ k := mkValue 1 100 0 ]} in
  fire (DoReturn name_A) c1 m !! k = Some (mkValue 1 100 50) /\
  fire (DoReturn name_A) c2 (fire (DoReturn name_A) c1 m) !! k
    = Some (mkValue 1 100 130).
Proof.
  cbv zeta.
  apply (exit_keeps_counter_and_start (DoReturn name_A) (DoReturn name_A)
           (sample_ctx 150 7) (sample_ctx 180 7) _ _ (mkValue 1 100 0));
    first [ apply lookup_singleton_eq | reflexivity ].
Defined.

(** ** A full map *)

(** C3: an entry probe that finds its key missing from a full map gets
    no leaf from [lookup_or_init] / [lookup_or_try_init], which leave the
    map as it is, and the probe returns without touching the map: every
    key keeps the value it had and none is evicted. *)
Theorem full_table_drops_entry (p : probe) (ctx : ctx_t) (m : table) :
  is_entry p = true ->
  m !! key_of p ctx = None ->
  map_size p <= Z.of_nat (size m) ->
  lookup_or_init (map_size p) m (key_of p ctx) (mkValue 0 0 0) = (m, None) /\
  lookup_or_try_init (map_size p) m (key_of p ctx) (mkValue 0 0 0) = (m, None) /\
  fire p ctx m = m /\
  (forall k : key_t, fire p ctx m !! k = m !! k) /\
  size (fire p ctx m) = size m.
Proof.
  intros Hp Hk Hfull.
  assert (Hroom : has_room (map_size p) m = false).
  { unfold has_room. apply Z.ltb_ge. exact Hfull. }
  assert (Hinit : lookup_or_try_init (map_size p) m (key_of p ctx) (mkValue 0 0 0)
                  = (m, None)).
  { open_handler. rewrite Hk. simpl. rewrite Hroom. rewrite Hk. reflexivity. }
  assert (Hfire : fire p ctx m = m).
  { rewrite fire_entry by exact Hp. rewrite Hk, Hroom. reflexivity. }
  split; [exact Hinit|]. split; [exact Hinit|].
  rewrite Hfire. auto.
Qed.

(** [usdt_enter] of a new marker on the crowded map. *)
Lemma full_table_drops_entry_witness :
  let ctx := sample_ctx 5 7 in
  crowded_table !! key_of UsdtEnter ctx = None /\
  map_size UsdtEnter <= Z.of_nat (size crowded_table) /\
  fire UsdtEnter ctx crowded_table = crowded_table.
Proof.
  cbv zeta.
  assert (Hk : crowded_table !! key_of UsdtEnter (sample_ctx 5 7) = None)
    by (vm_compute; reflexivity).
  assert (Hfull : map_size UsdtEnter <= Z.of_nat (size crowded_table))
    by (vm_compute; discriminate).
  split; [exact Hk|]. split; [exact Hfull|].
  exact (proj1 (proj2 (proj2
    (full_table_drops_entry UsdtEnter (sample_ctx 5 7) crowded_table
       eq_refl Hk Hfull)))).
Defined.

(** ** A marker argument that cannot be read *)

Lemma read_fault_negative (ctx : ctx_t) (size : nat) (addr : Z) :
  user_str ctx addr = None -> fst (bpf_probe_read_str ctx size addr) < 0.
Proof.
  intros Hf. unfold bpf_probe_read_str. rewrite Hf. reflexivity.
Qed.

(** The test [ret < 0] of [usdt_enter] and [usdt_return] never holds:
    whatever [bpf_probe_read_str] returns, both probes go on. *)
Lemma usdt_read_guard_dead (r : Z) : (u32 r <? 0) = false.
Proof. apply u32_not_negative. Qed.

(** C4, on the code: a [usdt_enter] and a [usdt_return] whose read of the
    marker argument faults are not dropped. On the empty map each of them
    creates an entry, under the key with the all-zero name. *)
Theorem usdt_read_fault_recorded :
  let ctx := fault_ctx 100 7 in
  fst (bpf_probe_read_str ctx 64 (bpf_usdt_readarg2 ctx)) = - EFAULT /\
  Usdt.key_fname (key_of UsdtEnter ctx) = replicate 64 0 /\
  fire UsdtEnter ctx ∅ = {[ key_of UsdtEnter ctx := mkValue 1 100 0 ]} /\
  fire UsdtReturn ctx ∅ = {[ key_of UsdtReturn ctx := mkValue 1 100 0 ]} /\
  fire UsdtEnter ctx ∅ <> ∅ /\
  fire UsdtReturn ctx ∅ <> ∅.
Proof.
  cbv zeta.
  assert (He : fire UsdtEnter (fault_ctx 100 7) ∅
               = {[ key_of UsdtEnter (fault_ctx 100 7) := mkValue 1 100 0 ]}).
  { rewrite fire_entry by reflexivity.
    rewrite lookup_empty, has_room_empty_probe. reflexivity. }
  assert (Hr : fire UsdtReturn (fault_ctx 100 7) ∅
               = {[ key_of UsdtReturn (fault_ctx 100 7) := mkValue 1 100 0 ]}).
  { rewrite fire_usdt_exit by reflexivity.
    rewrite lookup_empty, has_room_empty_probe. reflexivity. }
  split; [reflexivity|]. split; [vm_compute; reflexivity|].
  split; [exact He|]. split; [exact Hr|].
  rewrite He, Hr. split; apply insert_non_empty.
Qed.

(** ** Names and the 64-byte fields of the key *)

Lemma read_write_away (off len off' : nat) (bs buf : list Z) :
  (off + len <= off' \/ off' + length bs <= off)%nat ->
  read_bytes off len (write_bytes off' bs buf) = read_bytes off len buf.
Proof.
  intros Hfar. unfold read_bytes, write_bytes. apply list_eq. intros i.
  destruct (decide (i < len)%nat) as [Hi|Hi].
  - rewrite !lookup_take_lt, !lookup_drop by exact Hi.
    destruct Hfar as [Hlo|Hhi].
    + apply list_lookup_inserts_lt. lia.
    + apply list_lookup_inserts_ge. lia.
  - rewrite !lookup_take_ge by lia. reflexivity.
Qed.

Lemma read_write_here (off len : nat) (bs buf : list Z) :
  (len <= length bs)%nat -> (off + len <= length buf)%nat ->
  read_bytes off len (write_bytes off bs buf) = take len bs.
Proof.
  intros Hlen Hbuf. unfold read_bytes, write_bytes. apply list_eq. intros i.
  destruct (decide (i < len)%nat) as [Hi|Hi].
  - rewrite !lookup_take_lt, lookup_drop by exact Hi.
    rewrite list_lookup_inserts by lia. f_equal. lia.
  - rewrite !lookup_take_ge by lia. reflexivity.
Qed.

Lemma c_str_nonzero (s : list Z) : Forall (fun c => c <> 0) (c_str s).
Proof.
  induction s as [|c s IH]; simpl; [constructor|].
  destruct (Z.eqb_spec c 0); constructor; assumption.
Qed.

(** What [do_enter] and [do_return] leave in [key.fname] for a name of
    64 bytes or more: its first 64 bytes, with no terminator. *)
Lemma function_key_fname_long (ctx : ctx_t) (fname : list Z) :
  (64 <= length (c_str fname))%nat ->
  Ebpf.key_fname (Ebpf.function_key ctx fname) = take 64 (c_str fname).
Proof.
  intros Hlen. unfold Ebpf.key_fname, Ebpf.function_key.
  rewrite read_write_away by (left; layout).
  unfold bpf_get_current_comm.
  rewrite read_write_away by (left; layout).
  unfold strcpy, Ebpf.fname_off.
  rewrite read_write_here.
  - apply take_app_le. lia.
  - rewrite length_app. simpl. lia.
  - rewrite length_replicate. unfold Ebpf.key_size. lia.
Qed.

(** What [usdt_enter] and [usdt_return] leave in [key.fname] for an
    argument of 63 bytes or more: 63 bytes and a terminator. *)
Lemma marker_key_fname_long (ctx : ctx_t) (s : list Z) :
  user_str ctx (bpf_usdt_readarg2 ctx) = Some s ->
  (63 <= length (c_str s))%nat ->
  Usdt.key_fname (Usdt.marker_key ctx) = take 63 (c_str s) ++ [0].
Proof.
  intros Hs Hlen. unfold Usdt.key_fname, Usdt.marker_key.
  rewrite read_write_away by (left; layout).
  unfold bpf_get_current_comm.
  rewrite read_write_away by (left; layout).
  unfold bpf_probe_read_str. rewrite Hs. simpl snd.
  assert (Hbody : length (take 63 (c_str s) ++ [0]) = 64%nat).
  { rewrite length_app, length_take_le by exact Hlen. reflexivity. }
  unfold Usdt.fname_off. rewrite read_write_here.
  - apply take_ge. simpl Nat.pred. rewrite Hbody. reflexivity.
  - simpl Nat.pred. rewrite Hbody. reflexivity.
  - rewrite length_replicate. unfold Usdt.key_size. lia.
Qed.

(** C5, on the code: [do_enter] copies a 70-byte name with [strcpy].
    [key.fname] then holds the first 64 bytes of the name and no
    terminator, not its first 63 bytes and a terminator; the event is
    recorded all the same. *)
Theorem do_enter_long_name_overrun :
  let ctx := sample_ctx 100 7 in
  let key := key_of (DoEnter long_name) ctx in
  Ebpf.key_fname key = take 64 long_name /\
  Ebpf.key_fname key <> take 63 long_name ++ [0] /\
  Ebpf.key_fname key !! 63%nat = Some 97 /\
  fire (DoEnter long_name) ctx ∅ = {[ key := mkValue 1 100 0 ]}.
Proof.
  cbv zeta.
  assert (Hf : Ebpf.key_fname (key_of (DoEnter long_name) (sample_ctx 100 7))
               = take 64 long_name).
  { simpl key_of. rewrite function_key_fname_long; [reflexivity|].
    replace (length (c_str long_name)) with 70%nat by reflexivity. lia. }
  split; [exact Hf|]. rewrite Hf.
  split; [vm_compute; discriminate|]. split; [reflexivity|].
  rewrite fire_entry by reflexivity.
  rewrite lookup_empty, has_room_empty_probe. reflexivity.
Qed.

(** ** Pairing an entry with its exit *)

(** After a recorded entry the key holds the entry's timestamp and the
    latency it had before. *)
Lemma entry_recorded (p : probe) (ctx : ctx_t) (m : table) (k : key_t) :
  is_entry p = true ->
  key_of p ctx = k ->
  is_Some (m !! k) \/ has_room (map_size p) m = true ->
  exists v, fire p ctx m !! k = Some v /\
            startTime v = now ctx /\
            cumLat v = latency_of m k /\
            counter v = u32 (from_option counter 0 (m !! k) + 1).
Proof.
  intros Hp <- Hrec. rewrite fire_entry_lookup by exact Hp.
  unfold latency_of.
  destruct (m !! key_of p ctx) as [v|] eqn:Hk.
  - exists (bump (now ctx) v). auto.
  - destruct Hrec as [[v Hv]|Hroom]; [discriminate|].
    rewrite Hroom. exists (mkValue 1 (now ctx) 0). auto.
Qed.

(** C6, as stated, fails in two ways: [do_return] takes an entry stamped
    0 for no entry at all and adds nothing, and [cumLat] is a 64-bit sum
    that wraps around. *)
Lemma paired_latency_cex :
  (let k := key_of (DoEnter name_A) (sample_ctx 0 7) in
   fire (DoReturn name_A) (sample_ctx 5 7)
        (fire (DoEnter name_A) (sample_ctx 0 7) ∅) !! k
     = Some (mkValue 1 0 0)
   /\ latency_of ∅ k + (5 - 0) <> 0) /\
  (let k := key_of SysEnter (sample_ctx 1 7) in
   let m : table := {[ k := mkValue 1 0 (2 ^ 64 - 1) ]} in
   fire SysExit (sample_ctx 3 7) (fire SysEnter (sample_ctx 1 7) m) !! k
     = Some (mkValue 2 1 1)
   /\ latency_of m k + (3 - 1) <> 1).
Proof.
  cbv zeta. split; split.
  - vm_compute. reflexivity.
  - unfold latency_of. rewrite lookup_empty. simpl. lia.
  - vm_compute. reflexivity.
  - unfold latency_of. rewrite lookup_singleton_eq. simpl. lia.
Qed.

(** C6 (amended): an entry at [t0] that is recorded (its key is in the
    map or the map has a free slot), then events on other keys only, then
    an exit at [t1 >= t0] on the same key, where [t0] is not 0 when the
    exit is [do_return]: the key's [cumLat] after the exit is its [cumLat]
    before the entry plus [t1 - t0], modulo [2 ^ 64]; it is exactly that
    sum when the sum fits 64 bits. *)
Theorem paired_latency_delta (pe px : probe) (ctx0 ctx1 : ctx_t)
    (mid : list event) (m : table) (k : key_t) :
  is_entry pe = true -> is_exit px = true ->
  key_of pe ctx0 = k -> key_of px ctx1 = k ->
  Forall (fun e => key_of (fst e) (snd e) <> k) mid ->
  now ctx0 <= now ctx1 ->
  is_Some (m !! k) \/ has_room (map_size pe) m = true ->
  (forall fname, px = DoReturn fname -> now ctx0 <> 0) ->
  exists v',
    fire px ctx1 (run (fire pe ctx0 m) mid) !! k = Some v' /\
    cumLat v' = u64 (latency_of m k + (now ctx1 - now ctx0)) /\
    (0 <= latency_of m k ->
     latency_of m k + (now ctx1 - now ctx0) < 2 ^ 64 ->
     cumLat v' = latency_of m k + (now ctx1 - now ctx0)).
Proof.
  intros Hpe Hpx Hke Hkx Hmid Hle Hrec Hnz.
  destruct (entry_recorded pe ctx0 m k Hpe Hke Hrec) as (v & Hv & Hs & Hc & _).
  assert (Hmidv : run (fire pe ctx0 m) mid !! k = Some v).
  { rewrite run_other by exact Hmid. exact Hv. }
  rewrite <- Hkx in Hmidv.
  exists (accum (now ctx1) v). rewrite <- Hkx at 1.
  rewrite (fire_exit_lookup px ctx1 _ v Hpx Hmidv).
  assert (Hacc : cumLat (accum (now ctx1) v)
                 = u64 (latency_of m k + (now ctx1 - now ctx0))).
  { unfold accum; simpl. rewrite u64_add_inner, Hs, Hc. reflexivity. }
  split; [|split].
  - destruct px; try reflexivity.
    destruct (Z.eqb_spec (startTime v) 0) as [Hz|_]; [|reflexivity].
    exfalso. apply (Hnz fname eq_refl). congruence.
  - exact Hacc.
  - intros H0 Hfit. rewrite Hacc. apply u64_small. lia.
Qed.

(** [do_enter] at 100, a syscall of another process, [do_return] at 150. *)
Lemma paired_latency_delta_witness :
  let c0 := sample_ctx 100 7 in
  let c1 := sample_ctx 150 7 in
  let other := (SysEnter, sample_ctx 120 9) in
  let k := key_of (DoEnter name_A) c0 in
  exists v',
    fire (DoReturn name_A) c1 (run (fire (DoEnter name_A) c0 ∅) [other]) !! k
      = Some v' /\
    cumLat v' = u64 (latency_of ∅ k + (now c1 - now c0)) /\
    (0 <= latency_of ∅ k ->
     latency_of ∅ k + (now c1 - now c0) < 2 ^ 64 ->
     cumLat v' = latency_of ∅ k + (now c1 - now c0)).
Proof.
  cbv zeta.
  apply (paired_latency_delta (DoEnter name_A) (DoReturn name_A)
           (sample_ctx 100 7) (sample_ctx 150 7) [(SysEnter, sample_ctx 120 9)] ∅).
  - reflexivity.
  - reflexivity.
  - reflexivity.
  - reflexivity.
  - constructor; [|constructor]. vm_compute. discriminate.
  - vm_compute. discriminate.
  - right. apply has_room_empty_probe.
  - intros fname _. vm_compute. discriminate.
Defined.

(** ** Two entries before one exit *)

(** C8: entry at 100, entry at 105, exit at 150 on one key that had no
    entry, in a map with a free slot: the second entry overwrites the
    start time, and the key ends with [counter = 2] and [cumLat = 45]. *)
Theorem interleaved_entries_collapse (pe1 pe2 px : probe)
    (ctx1 ctx2 ctx3 : ctx_t) (m : table) (k : key_t) :
  is_entry pe1 = true -> is_entry pe2 = true -> is_exit px = true ->
  key_of pe1 ctx1 = k -> key_of pe2 ctx2 = k -> key_of px ctx3 = k ->
  ktime_ns ctx1 = 100 -> ktime_ns ctx2 = 105 -> ktime_ns ctx3 = 150 ->
  m !! k = None -> has_room (map_size pe1) m = true ->
  fire pe1 ctx1 m !! k = Some (mkValue 1 100 0) /\
  fire pe2 ctx2 (fire pe1 ctx1 m) !! k = Some (mkValue 2 105 0) /\
  fire px ctx3 (fire pe2 ctx2 (fire pe1 ctx1 m)) !! k = Some (mkValue 2 105 45).
Proof.
  intros Hp1 Hp2 Hpx Hk1 Hk2 Hk3 Ht1 Ht2 Ht3 Hk Hroom.
  assert (Hn1 : now ctx1 = 100) by (unfold now, bpf_ktime_get_ns; rewrite Ht1; reflexivity).
  assert (Hn2 : now ctx2 = 105) by (unfold now, bpf_ktime_get_ns; rewrite Ht2; reflexivity).
  assert (Hn3 : now ctx3 = 150) by (unfold now, bpf_ktime_get_ns; rewrite Ht3; reflexivity).
  assert (H1 : fire pe1 ctx1 m !! k = Some (mkValue 1 100 0)).
  { rewrite <- Hk1 in Hk |- *. rewrite fire_entry_lookup by exact Hp1.
    rewrite Hk, Hroom, Hn1. reflexivity. }
  assert (H2 : fire pe2 ctx2 (fire pe1 ctx1 m) !! k = Some (mkValue 2 105 0)).
  { rewrite <- Hk2 in H1 |- *. rewrite fire_entry_lookup by exact Hp2.
    rewrite H1, Hn2. reflexivity. }
  split; [exact H1|]. split; [exact H2|].
  rewrite <- Hk3 in H2 |- *.
  rewrite (fire_exit_lookup px ctx3 _ _ Hpx H2), Hn3.
  destruct px; reflexivity.
Qed.

(** The scenario on the empty map, with [do_enter] and [do_return]. *)
Lemma interleaved_entries_collapse_witness :
  let c1 := sample_ctx 100 7 in
  let c2 := sample_ctx 105 7 in
  let c3 := sample_ctx 150 7 in
  let k := key_of (DoEnter name_A) c1 in
  (∅ : table) !! k = None /\
  has_room (map_size (DoEnter name_A)) (∅ : table) = true /\
  fire (DoReturn name_A) c3
    (fire (DoEnter name_A) c2 (fire (DoEnter name_A) c1 ∅)) !! k
  = Some (mkValue 2 105 45).
Proof.
  cbv zeta. split; [apply lookup_empty|]. split; [reflexivity|].
  exact (proj2 (proj2
    (interleaved_entries_collapse (DoEnter name_A) (DoEnter name_A)
       (DoReturn name_A) (sample_ctx 100 7) (sample_ctx 105 7)
       (sample_ctx 150 7) ∅ _ eq_refl eq_refl eq_refl eq_refl eq_refl eq_refl
       eq_refl eq_refl eq_refl (lookup_empty _) eq_refl))).
Defined.

(** ** Counting entries *)

Lemma u32_range (z : Z) : 0 <= u32 z < 2 ^ 32.
Proof. unfold u32. apply Z.mod_pos_bound. lia. Qed.

Lemma u32_succ (a b : Z) : u32 (u32 a + b) = u32 (a + b).
Proof. unfold u32. apply Zplus_mod_idemp_l. Qed.

(** Entries on a key that is in the map: the counter advances by their
    number, modulo [2 ^ 32]. *)
Lemma run_entries_present (evs : list event) (k : key_t) :
  Forall (fun e => is_entry (fst e) = true /\ key_of (fst e) (snd e) = k) evs ->
  forall (m : table) (v : value_t),
    m !! k = Some v ->
    exists v', run m evs !! k = Some v' /\
               u32 (counter v') = u32 (counter v + Z.of_nat (length evs)) /\
               (evs <> [] -> 0 <= counter v' < 2 ^ 32).
Proof.
  induction 1 as [|[p ctx] evs [Hp Hke] _ IH]; intros m v Hk.
  - exists v. rewrite run_nil, Z.add_0_r.
    split; [exact Hk|]. split; [reflexivity|]. intros Hne. exfalso. apply Hne. reflexivity.
  - simpl in Hp, Hke. rewrite run_cons. simpl fst; simpl snd.
    assert (Hv1 : fire p ctx m !! k = Some (bump (now ctx) v)).
    { rewrite <- Hke in Hk |- *. rewrite fire_entry_lookup by exact Hp.
      rewrite Hk. reflexivity. }
    destruct (IH _ _ Hv1) as (v' & Hv' & Hc & Hr).
    exists v'. split; [exact Hv'|]. split.
    + rewrite Hc. simpl counter. rewrite u32_succ. f_equal.
      rewrite length_cons, Nat2Z.inj_succ. lia.
    + intros _. destruct evs as [|e evs'].
      * rewrite run_nil in Hv'. rewrite Hv1 in Hv'. injection Hv' as <-.
        apply u32_range.
      * apply Hr. discriminate.
Qed.

(** Entries on a key that is not in the map, the map having a free slot:
    the counter is their number, modulo [2 ^ 32]. *)
Lemma run_entries_fresh (evs : list event) (m : table) (k : key_t) :
  evs <> [] ->
  Forall (fun e => is_entry (fst e) = true /\ key_of (fst e) (snd e) = k /\
                   has_room (map_size (fst e)) m = true) evs ->
  m !! k = None ->
  exists v, run m evs !! k = Some v /\
            counter v = Z.of_nat (length evs) mod 2 ^ 32.
Proof.
  intros Hne Hall Hk.
  destruct evs as [|[p ctx] evs]; [congruence|].
  apply Forall_cons in Hall as [(Hp & Hke & Hroom) Hall]. simpl in Hp, Hke, Hroom.
  assert (Hv1 : fire p ctx m !! k = Some (mkValue 1 (now ctx) 0)).
  { rewrite <- Hke in Hk |- *. rewrite fire_entry_lookup by exact Hp.
    rewrite Hk, Hroom. reflexivity. }
  assert (Hall' : Forall (fun e => is_entry (fst e) = true /\
                                   key_of (fst e) (snd e) = k) evs).
  { eapply Forall_impl; [exact Hall|]. intros e (? & ? & _). auto. }
  destruct (run_entries_present evs k Hall' _ _ Hv1) as (v' & Hv' & Hc & Hr).
  exists v'. rewrite run_cons. split; [exact Hv'|].
  simpl counter in Hc. rewrite length_cons, Nat2Z.inj_succ.
  replace (Z.succ (Z.of_nat (length evs))) with (1 + Z.of_nat (length evs)) by lia.
  change (counter v' = u32 (1 + Z.of_nat (length evs))). rewrite <- Hc.
  destruct evs as [|e evs'].
  - rewrite run_nil, Hv1 in Hv'. injection Hv' as <-. reflexivity.
  - symmetry. unfold u32. apply Z.mod_small. apply Hr. discriminate.
Qed.

(** C7, as stated, fails: [counter] has 32 bits, and after [2 ^ 32]
    entries on a key it is back at 0. *)
Lemma entries_counted_cex :
  ~ (forall (evs : list event) (m : table) (k : key_t),
       evs <> [] ->
       Forall (fun e => is_entry (fst e) = true /\ key_of (fst e) (snd e) = k /\
                        has_room (map_size (fst e)) m = true) evs ->
       m !! k = None ->
       exists v, run m evs !! k = Some v /\ counter v = Z.of_nat (length evs)).
Proof.
  intros Hclaim.
  pose (e := (DoEnter name_A, sample_ctx 100 7) : event).
  pose (k := key_of (fst e) (snd e)).
  assert (Hlen : forall n : nat, Z.of_nat n = 4294967296 -> False).
  { intros n Hn.
    assert (Hne : replicate n e <> []).
    { intros Hnil. apply (f_equal length) in Hnil.
      rewrite length_replicate in Hnil. simpl in Hnil. lia. }
    assert (Hall : Forall (fun e => is_entry (fst e) = true /\
                             key_of (fst e) (snd e) = k /\
                             has_room (map_size (fst e)) (∅ : table) = true)
                          (replicate n e)).
    { apply Forall_replicate. split; [reflexivity|]. split; reflexivity. }
    destruct (Hclaim _ ∅ k Hne Hall (lookup_empty _)) as (v & Hv & Hc).
    destruct (run_entries_fresh _ ∅ k Hne Hall (lookup_empty _)) as (v' & Hv' & Hc').
    rewrite Hv in Hv'. injection Hv' as <-.
    rewrite length_replicate, Hn in Hc, Hc'.
    rewrite Hc in Hc'. discriminate Hc'. }
  apply (Hlen (Z.to_nat 4294967296)). apply Z2Nat.id. discriminate.
Qed.

(** C7 (amended): after a sequence of [N >= 1] entry events sharing one
    key, from a map without the key and with a free slot, the key's
    counter is [N mod 2 ^ 32]: it equals [N] as long as [N < 2 ^ 32]. *)
Theorem entries_counted_mod (evs : list event) (m : table) (k : key_t) :
  evs <> [] ->
  Forall (fun e => is_entry (fst e) = true /\ key_of (fst e) (snd e) = k /\
                   has_room (map_size (fst e)) m = true) evs ->
  m !! k = None ->
  exists v, run m evs !! k = Some v /\
            counter v = Z.of_nat (length evs) mod 2 ^ 32 /\
            (Z.of_nat (length evs) < 2 ^ 32 -> counter v = Z.of_nat (length evs)).
Proof.
  intros Hne Hall Hk.
  destruct (run_entries_fresh evs m k Hne Hall Hk) as (v & Hv & Hc).
  exists v. split; [exact Hv|]. split; [exact Hc|].
  intros Hlt. rewrite Hc. apply Z.mod_small. lia.
Qed.

(** Three calls of one function by one process. *)
Lemma entries_counted_mod_witness :
  let evs : list event :=
    [ (DoEnter name_A, sample_ctx 100 7); (DoEnter name_A, sample_ctx 105 7);
      (DoEnter name_A, sample_ctx 200 7) ] in
  let k := key_of (DoEnter name_A) (sample_ctx 100 7) in
  exists v, run ∅ evs !! k = Some v /\
            counter v = 3 mod 2 ^ 32 /\
            (3 < 2 ^ 32 -> counter v = 3).
Proof.
  cbv zeta.
  apply (entries_counted_mod
           [ (DoEnter name_A, sample_ctx 100 7); (DoEnter name_A, sample_ctx 105 7);
             (DoEnter name_A, sample_ctx 200 7) ] ∅).
  - discriminate.
  - repeat constructor.
  - apply lookup_empty.
Defined.

(** ** Monotone counters *)

Lemma run_fits_app (m : table) (evs1 evs2 : list event) :
  run_fits m (evs1 ++ evs2) -> run_fits (run m evs1) evs2.
Proof.
  revert m. induction evs1 as [|e evs1 IH]; intros m Hfit.
  - exact Hfit.
  - destruct Hfit as [_ Hrest]. rewrite run_cons. apply IH. exact Hrest.
Qed.

Lemma u32_bump_le (c : Z) : c + 1 < 2 ^ 32 -> c <= u32 (c + 1).
Proof.
  intros Hc. unfold u32.
  destruct (Z_lt_le_dec (c + 1) 0) as [Hneg|Hpos].
  - pose proof (Z.mod_pos_bound (c + 1) (2 ^ 32) ltac:(lia)). lia.
  - rewrite Z.mod_small by lia. lia.
Qed.

Lemma u64_accum_le (l s t : Z) :
  s <= t -> l + (t - s) < 2 ^ 64 -> l <= u64 (l + u64 (t - s)).
Proof.
  intros Hst Hfit. rewrite u64_add_inner. unfold u64.
  destruct (Z_lt_le_dec (l + (t - s)) 0) as [Hneg|Hpos].
  - pose proof (Z.mod_pos_bound (l + (t - s)) (2 ^ 64) ltac:(lia)). lia.
  - rewrite Z.mod_small by lia. lia.
Qed.

(** One firing that does not wrap keeps every key and lowers neither
    its counter nor its latency. *)
Lemma fire_monotone (m : table) (e : event) (k : key_t) (v : value_t) :
  step_fits m e ->
  m !! k = Some v ->
  exists v', fire (fst e) (snd e) m !! k = Some v' /\
             counter v <= counter v' /\ cumLat v <= cumLat v' /\
             (is_entry (fst e) = true -> cumLat v' = cumLat v).
Proof.
  destruct e as [p ctx]. unfold step_fits. simpl fst; simpl snd.
  intros Hfit Hk.
  destruct (decide (k = key_of p ctx)) as [->|Hne].
  - rewrite Hk in Hfit.
    destruct (is_entry p) eqn:Hp.
    + exists (bump (now ctx) v). rewrite fire_entry_lookup by exact Hp.
      rewrite Hk. split; [reflexivity|]. simpl.
      split; [apply u32_bump_le; exact Hfit|]. split; [lia | reflexivity].
    + assert (Hpx : is_exit p = true) by (unfold is_exit; rewrite Hp; reflexivity).
      rewrite (fire_exit_lookup p ctx m v Hpx Hk).
      assert (Hacc : accumulates p v = true ->
                     counter v <= counter (accum (now ctx) v) /\
                     cumLat v <= cumLat (accum (now ctx) v)).
      { intros Ha. rewrite Ha in Hfit. destruct Hfit as [Hst Hsum].
        simpl. split; [lia | apply u64_accum_le; assumption]. }
      assert (Hkeep : counter v <= counter v /\ cumLat v <= cumLat v) by lia.
      eexists. split; [reflexivity|].
      assert (Hboth : forall v1 : value_t,
                counter v <= counter v1 /\ cumLat v <= cumLat v1 ->
                counter v <= counter v1 /\ cumLat v <= cumLat v1 /\
                (false = true -> cumLat v1 = cumLat v)).
      { intros v1 [? ?]. repeat split; [assumption | assumption | discriminate]. }
      apply Hboth.
      destruct p; try exact (Hacc eq_refl).
      simpl in Hacc.
      destruct (startTime v =? 0); [exact Hkeep | exact (Hacc eq_refl)].
  - exists v. rewrite fire_other by exact Hne.
    split; [exact Hk|]. split; [lia|]. split; [lia | reflexivity].
Qed.

Lemma run_monotone (evs : list event) (m : table) (k : key_t) (v : value_t) :
  run_fits m evs ->
  m !! k = Some v ->
  exists v', run m evs !! k = Some v' /\
             counter v <= counter v' /\ cumLat v <= cumLat v' /\
             (Forall (fun e => is_entry (fst e) = true) evs ->
              cumLat v' = cumLat v).
Proof.
  revert m v. induction evs as [|e evs IH]; intros m v Hfit Hk.
  - exists v. rewrite run_nil.
    split; [exact Hk|]. split; [lia|]. split; [lia | reflexivity].
  - destruct Hfit as [Hstep Hrest].
    destruct (fire_monotone m e k v Hstep Hk) as (v1 & Hv1 & Hc1 & Hl1 & He1).
    destruct (IH _ _ Hrest Hv1) as (v' & Hv' & Hc' & Hl' & He').
    exists v'. rewrite run_cons.
    split; [exact Hv'|]. split; [lia|]. split; [lia|].
    intros Hall. apply Forall_cons in Hall as [He Hall].
    rewrite (He' Hall). apply He1. exact He.
Qed.

(** C9, as stated, fails. The 32-bit counter of a key is [2 ^ 32 - 1]
    after that many entries and 0 after one more; and an exit stamped
    before the stored start time lowers [cumLat]: entry at 100, exit at
    150, exit at 50 leaves 50 and then 0. *)
Lemma counters_monotone_cex :
  (let e : event := (DoEnter name_A, sample_ctx 100 7) in
   let k := key_of (fst e) (snd e) in
   exists (n : nat) (v v' : value_t),
     run ∅ (replicate n e) !! k = Some v /\
     run ∅ (replicate n e ++ [e]) !! k = Some v' /\
     counter v' < counter v) /\
  (let a : event := (DoEnter name_A, sample_ctx 100 7) in
   let b : event := (DoReturn name_A, sample_ctx 150 7) in
   let c : event := (DoReturn name_A, sample_ctx 50 7) in
   let k := key_of (fst a) (snd a) in
   run ∅ [a; b] !! k = Some (mkValue 1 100 50) /\
   run ∅ ([a; b] ++ [c]) !! k = Some (mkValue 1 100 0)).
Proof.
  cbv zeta. split.
  - pose (e := (DoEnter name_A, sample_ctx 100 7) : event).
    pose (k := key_of (fst e) (snd e)).
    assert (Hgen : forall n : nat, Z.of_nat n = 4294967295 ->
              exists v v' : value_t,
                run ∅ (replicate n e) !! k = Some v /\
                run ∅ (replicate n e ++ [e]) !! k = Some v' /\
                counter v' < counter v).
    { intros n Hn.
      assert (Hne : replicate n e <> []).
      { intros Hnil. apply (f_equal length) in Hnil.
        rewrite length_replicate in Hnil. simpl in Hnil. lia. }
      assert (Hall : Forall (fun e => is_entry (fst e) = true /\
                               key_of (fst e) (snd e) = k /\
                               has_room (map_size (fst e)) (∅ : table) = true)
                            (replicate n e)).
      { apply Forall_replicate. split; [reflexivity|]. split; reflexivity. }
      destruct (run_entries_fresh _ ∅ k Hne Hall (lookup_empty _)) as (v & Hv & Hc).
      rewrite length_replicate, Hn in Hc.
      exists v, (bump (now (snd e)) v). split; [exact Hv|]. split.
      - rewrite run_app, run_cons, run_nil.
        unfold k in Hv |- *. rewrite fire_entry_lookup by reflexivity.
        rewrite Hv. reflexivity.
      - simpl counter. rewrite Hc. reflexivity. }
    exists (Z.to_nat 4294967295). apply Hgen. apply Z2Nat.id. discriminate.
  - split; vm_compute; reflexivity.
Qed.

(** C9 (amended): along a sequence of entry and exit events in which no
    firing wraps (no entry finds its counter at [2 ^ 32 - 1], no
    accumulating exit is stamped before the stored start time, no latency
    sum reaches [2 ^ 64]), a key that is in the map stays in the map, and
    from any point of the sequence to any later point neither its counter
    nor its [cumLat] decreases; [cumLat] moves on exits only. *)
Theorem counters_monotone (m : table) (evs1 evs2 : list event) (k : key_t)
    (v : value_t) :
  run_fits m (evs1 ++ evs2) ->
  run m evs1 !! k = Some v ->
  exists v', run m (evs1 ++ evs2) !! k = Some v' /\
             counter v <= counter v' /\ cumLat v <= cumLat v' /\
             (Forall (fun e => is_entry (fst e) = true) evs2 ->
              cumLat v' = cumLat v).
Proof.
  intros Hfit Hk. rewrite run_app.
  apply run_monotone; [apply run_fits_app; exact Hfit | exact Hk].
Qed.

(** Two calls of a function with a syscall in between. *)
Lemma counters_monotone_witness :
  let evs1 : list event :=
    [ (DoEnter name_A, sample_ctx 100 7); (DoReturn name_A, sample_ctx 150 7) ] in
  let evs2 : list event :=
    [ (SysEnter, sample_ctx 160 7); (DoEnter name_A, sample_ctx 200 7);
      (DoReturn name_A, sample_ctx 260 7); (SysExit, sample_ctx 270 7) ] in
  let k := key_of (DoEnter name_A) (sample_ctx 100 7) in
  run_fits ∅ (evs1 ++ evs2) /\
  run ∅ evs1 !! k = Some (mkValue 1 100 50) /\
  exists v', run ∅ (evs1 ++ evs2) !! k = Some v' /\
             1 <= counter v' /\ 50 <= cumLat v'.
Proof.
  cbv zeta.
  assert (Hfit : run_fits ∅
            ([ (DoEnter name_A, sample_ctx 100 7); (DoReturn name_A, sample_ctx 150 7) ]
             ++ [ (SysEnter, sample_ctx 160 7); (DoEnter name_A, sample_ctx 200 7);
                  (DoReturn name_A, sample_ctx 260 7); (SysExit, sample_ctx 270 7) ])).
  { vm_compute. repeat split; discriminate. }
  assert (Hk : run ∅ [ (DoEnter name_A, sample_ctx 100 7);
                       (DoReturn name_A, sample_ctx 150 7) ]
                 !! key_of (DoEnter name_A) (sample_ctx 100 7)
               = Some (mkValue 1 100 50)).
  { vm_compute. reflexivity. }
  split; [exact Hfit|]. split; [exact Hk|].
  destruct (counters_monotone ∅ _ _ _ _ Hfit Hk) as (v' & Hv' & Hc & Hl & _).
  exists v'. split; [exact Hv'|]. split; [exact Hc | exact Hl].
Defined.

(** * Further properties of the probes *)

(** ** Bytes and C strings *)

Lemma u32_of_u64 (z : Z) : u32 (u64 z) = u32 z.
Proof.
  unfold u32, u64. apply Z.mod_mod_divide.
  exists (2 ^ 32). reflexivity.
Qed.

Lemma le32_value_le32 (z : Z) : 0 <= z < 2 ^ 32 -> le32_value (le32 z) = z.
Proof.
  intros Hz. unfold le32_value, le32, byte_of.
  assert (H3 : (z / 2 ^ 24) mod 256 = z / 2 ^ 24).
  { apply Z.mod_small. split; [apply Z.div_pos; lia|].
    apply Z.div_lt_upper_bound; lia. }
  rewrite H3.
  pose proof (Z.div_mod z 256 ltac:(lia)) as E0.
  pose proof (Z.div_mod (z / 2 ^ 8) 256 ltac:(lia)) as E1.
  pose proof (Z.div_mod (z / 2 ^ 16) 256 ltac:(lia)) as E2.
  rewrite Z.div_div in E1 by lia. rewrite Z.div_div in E2 by lia.
  change (2 ^ 8) with 256 in *. change (256 * 256) with (2 ^ 16) in *.
  change (2 ^ 16 * 256) with (2 ^ 24) in *. lia.
Qed.


(** A buffer that starts with the nonzero bytes [a] followed by a NUL
    reads back as the C string [a]. *)
Lemma c_str_spec (a l : list Z) :
  Forall (fun c => c <> 0) a ->
  (forall i : nat, (i < length a)%nat -> l !! i = a !! i) ->
  l !! length a = Some 0 ->
  c_str l = a.
Proof.
  intros Ha. revert l. induction Ha as [|c a Hc _ IH]; intros l Hpre Hnul.
  - destruct l as [|x l]; [discriminate|]. simpl in Hnul.
    injection Hnul as ->. reflexivity.
  - destruct l as [|x l]; [discriminate|].
    pose proof (Hpre 0%nat ltac:(simpl; lia)) as H0. simpl in H0.
    injection H0 as ->. simpl.
    destruct (Z.eqb_spec c 0); [contradiction|]. f_equal.
    apply IH.
    + intros i Hi. apply (Hpre (S i)). simpl. lia.
    + exact Hnul.
Qed.

Lemma read_write_lookup (off len : nat) (bs buf : list Z) (i : nat) :
  (i < len)%nat -> (off + len <= length buf)%nat ->
  read_bytes off len (write_bytes off bs buf) !! i =
  if decide (i < length bs)%nat then bs !! i else buf !! (off + i)%nat.
Proof.
  intros Hi Hbuf. unfold read_bytes, write_bytes.
  rewrite lookup_take_lt, lookup_drop by exact Hi.
  destruct (decide (i < length bs)%nat) as [Hlt|Hge].
  - rewrite list_lookup_inserts by lia. f_equal. lia.
  - apply list_lookup_inserts_ge. lia.
Qed.

(** The C string in a field that was written from its first byte on. *)
Lemma c_str_field (off len : nat) (a bs buf : list Z) :
  Forall (fun c => c <> 0) a ->
  (length a < len)%nat -> (off + len <= length buf)%nat ->
  (forall i : nat, (i < length a)%nat -> bs !! i = a !! i) ->
  bs !! length a = Some 0 ->
  c_str (read_bytes off len (write_bytes off bs buf)) = a.
Proof.
  intros Ha Hlen Hbuf Hpre Hnul.
  assert (Hbs : (length a < length bs)%nat).
  { apply lookup_lt_is_Some. eauto. }
  apply c_str_spec; [exact Ha| |].
  - intros i Hi. rewrite read_write_lookup by lia.
    rewrite decide_True by lia. apply Hpre. exact Hi.
  - rewrite read_write_lookup by lia.
    rewrite decide_True by lia. exact Hnul.
Qed.

(** ** The fields of the keys the probes build *)

Lemma write_bytes_length (off : nat) (bs buf : list Z) :
  length (write_bytes off bs buf) = length buf.
Proof. apply length_inserts. Qed.

Lemma comm_bytes_length (c : list Z) :
  length (<[63%nat := 0]> (take 64 (c ++ replicate 64 0))) = 64%nat.
Proof.
  rewrite length_insert, length_take, length_app, length_replicate. lia.
Qed.

(** Every key is the pid stored over the process name stored over a
    buffer of at least 132 bytes. *)
Lemma key_of_shape (p : probe) (ctx : ctx_t) :
  exists X : list Z,
    (132 <= length X)%nat /\
    key_of p ctx =
    write_bytes 128 (le32 (u32 (bpf_get_current_pid_tgid ctx)))
      (write_bytes 64
         (<[63%nat := 0]> (take 64 (c_str (task_comm ctx) ++ replicate 64 0)))
         X).
Proof.
  destruct p; simpl key_of;
    unfold Ebpf.function_key, Ebpf.syscall_key, Usdt.gc_key, Usdt.marker_key,
      bpf_get_current_comm, Ebpf.pid_off, Ebpf.comm_off, Usdt.pid_off,
      Usdt.comm_off, Usdt.gc_key_init, strcpy;
    eexists; (split; [|reflexivity]);
    rewrite write_bytes_length, length_replicate;
    unfold Ebpf.key_size, Usdt.key_size; lia.
Qed.

Lemma pid_field_written (z : Z) (Y : list Z) :
  (132 <= length Y)%nat ->
  pid_field (write_bytes 128 (le32 (u32 z)) Y) = u32 z.
Proof.
  intros HY. unfold pid_field. rewrite read_write_here.
  - change (take 4 (le32 ?x)) with (le32 x).
    apply le32_value_le32. apply u32_range.
  - simpl. lia.
  - lia.
Qed.

Lemma comm_field_written (comm bs X : list Z) :
  (132 <= length X)%nat ->
  c_str (comm_field
           (write_bytes 128 bs
              (write_bytes 64
                 (<[63%nat := 0]> (take 64 (c_str comm ++ replicate 64 0))) X)))
  = take 63 (c_str comm).
Proof.
  intros HX.
  unfold comm_field. rewrite read_write_away by (left; lia).
  pose proof (c_str_nonzero comm) as Hnz.
  set (c := c_str comm) in *.
  assert (Hla : length (take 63 c) = Nat.min 63 (length c)) by apply length_take.
  apply c_str_field.
  - apply Forall_take. exact Hnz.
  - lia.
  - lia.
  - intros i Hi. rewrite list_lookup_insert_ne by lia.
    rewrite !lookup_take_lt by lia. apply lookup_app_l. lia.
  - destruct (le_lt_dec 63 (length c)) as [Hlong|Hshort].
    + replace (length (take 63 c)) with 63%nat by lia.
      apply list_lookup_insert_eq.
      rewrite length_take, length_app, length_replicate. lia.
    + replace (length (take 63 c)) with (length c) by lia.
      rewrite list_lookup_insert_ne by lia.
      rewrite lookup_take_lt by lia.
      rewrite lookup_app_r by lia. rewrite Nat.sub_diag. reflexivity.
Qed.



(** X3: Two firings that build the same key come from the same thread id and
    from process names that agree on their first 63 bytes. *)
Theorem same_key_same_task (p p' : probe) (ctx ctx' : ctx_t) :
  key_of p ctx = key_of p' ctx' ->
  u32 (pid_tgid ctx) = u32 (pid_tgid ctx') /\
  take 63 (c_str (task_comm ctx)) = take 63 (c_str (task_comm ctx')).
Proof.
  intros Hk.
  destruct (key_of_shape p ctx) as (X & HX & Hs).
  destruct (key_of_shape p' ctx') as (X' & HX' & Hs').
  rewrite Hs, Hs' in Hk. split.
  - apply (f_equal pid_field) in Hk.
    rewrite !pid_field_written in Hk by (rewrite write_bytes_length; assumption).
    unfold bpf_get_current_pid_tgid in Hk. rewrite !u32_of_u64 in Hk. exact Hk.
  - apply (f_equal (fun k => c_str (comm_field k))) in Hk.
    rewrite !comm_field_written in Hk by assumption. exact Hk.
Qed.

(** The same thread of [bash] at two times: one key. *)
Lemma same_key_same_task_witness :
  key_of SysEnter (sample_ctx 100 7) = key_of SysExit (sample_ctx 150 7) /\
  u32 (pid_tgid (sample_ctx 100 7)) = u32 (pid_tgid (sample_ctx 150 7)) /\
  take 63 (c_str (task_comm (sample_ctx 100 7)))
  = take 63 (c_str (task_comm (sample_ctx 150 7))).
Proof.
  split; [reflexivity|].
  apply (same_key_same_task SysEnter SysExit). reflexivity.
Defined.

(** ** Names *)


(** X5: The name [usdt_enter] and [usdt_return] store reads back as the first
    63 bytes of the marker argument, and as the empty name when the
    argument cannot be read. *)
Theorem marker_name_read_back (ctx : ctx_t) :
  c_str (Usdt.key_fname (Usdt.marker_key ctx)) =
  match user_str ctx (bpf_usdt_readarg2 ctx) with
  | Some s => take 63 (c_str s)
  | None => []
  end.
Proof.
  unfold Usdt.key_fname, Usdt.marker_key.
  rewrite read_write_away by (left; layout).
  unfold bpf_get_current_comm.
  rewrite read_write_away by (left; layout).
  unfold bpf_probe_read_str, Usdt.fname_off.
  destruct (user_str ctx (bpf_usdt_readarg2 ctx)) as [s|]; simpl snd.
  - pose proof (c_str_nonzero s) as Hnz.
    assert (Hla : length (take 63 (c_str s)) = Nat.min 63 (length (c_str s)))
      by apply length_take.
    apply c_str_field.
    + apply Forall_take. exact Hnz.
    + lia.
    + rewrite length_replicate. unfold Usdt.key_size. lia.
    + intros i Hi. apply lookup_app_l. exact Hi.
    + apply list_lookup_middle. reflexivity.
  - reflexivity.
Qed.





(** X7: [key.sysid] of a syscall key holds the low 32 bits of [args->id]. *)
Theorem syscall_key_sysid (ctx : ctx_t) :
  sysid_field (Ebpf.syscall_key ctx) = u32 (args_id ctx).
Proof.
  unfold sysid_field, Ebpf.syscall_key.
  rewrite read_write_away by (right; simpl; layout).
  unfold bpf_get_current_comm.
  rewrite read_write_away
    by (right; rewrite comm_bytes_length; layout).
  unfold Ebpf.sysid_off. rewrite read_write_here.
  - change (take 4 (le32 ?x)) with (le32 x).
    apply le32_value_le32. apply u32_range.
  - simpl. lia.
  - rewrite length_replicate. unfold Ebpf.key_size. lia.
Qed.

(** X8: A marker whose argument is the string [garbage_collector] builds the
    key of [usdt_gc_start] and [usdt_gc_done]: the two pairs of probes
    then count into one slot. *)
Theorem marker_named_gc_shares_slot (ctx : ctx_t) (s : list Z) :
  user_str ctx (bpf_usdt_readarg2 ctx) = Some s ->
  c_str s = bytes_of_string "garbage_collector" ->
  key_of UsdtEnter ctx = key_of UsdtGcStart ctx /\
  key_of UsdtReturn ctx = key_of UsdtGcDone ctx.
Proof.
  intros Hs Hname.
  assert (Hk : Usdt.marker_key ctx = Usdt.gc_key ctx).
  { unfold Usdt.marker_key, Usdt.gc_key, Usdt.gc_key_init, bpf_probe_read_str.
    rewrite Hs, Hname. reflexivity. }
  split; exact Hk.
Qed.

(** A marker fired from [garbage_collector()]. *)
Lemma marker_named_gc_shares_slot_witness :
  let ctx := mkCtx 100 (bytes_of_string "java") 7 0 4096
                   (fun _ => Some (bytes_of_string "garbage_collector")) in
  key_of UsdtEnter ctx = key_of UsdtGcStart ctx /\
  key_of UsdtReturn ctx = key_of UsdtGcDone ctx.
Proof.
  cbv zeta.
  apply (marker_named_gc_shares_slot _ (bytes_of_string "garbage_collector"));
    reflexivity.
Defined.

(** X9: A marker whose argument cannot be read builds the key of the marker
    with the empty name. *)
Theorem read_fault_key_is_empty_name (t pid id arg : Z) (comm s : list Z) :
  c_str s = [] ->
  Usdt.marker_key (mkCtx t comm pid id arg (fun _ => None)) =
  Usdt.marker_key (mkCtx t comm pid id arg (fun _ => Some s)).
Proof.
  intros Hs. unfold Usdt.marker_key, bpf_probe_read_str. cbn [user_str].
  rewrite Hs. reflexivity.
Qed.

(** The empty string itself. *)
Lemma read_fault_key_is_empty_name_witness :
  Usdt.marker_key (fault_ctx 100 7) =
  Usdt.marker_key (mkCtx 100 (bytes_of_string "bash") 7 0 4096 (fun _ => Some [])).
Proof.
  apply (read_fault_key_is_empty_name 100 7 0 4096 (bytes_of_string "bash") []).
  reflexivity.
Defined.

(** ** Keys of the map: creation, persistence, capacity *)

Lemma accumulates_not_return (p : probe) (v : value_t) :
  is_usdt_exit p = true \/ p = SysExit -> accumulates p v = true.
Proof. intros [Hu| ->]; [destruct p; try discriminate|]; reflexivity. Qed.

(** Every probe writes at most one leaf, under its own key. *)
Lemma fire_next_leaf (p : probe) (ctx : ctx_t) (m : table) :
  fire p ctx m =
  match next_leaf p ctx (m !! key_of p ctx) (has_room (map_size p) m) with
  | Some v' => <[key_of p ctx := v']> m
  | None => m
  end.
Proof.
  unfold next_leaf, creates.
  destruct (is_entry p) eqn:Hp.
  - rewrite fire_entry by exact Hp. simpl.
    destruct (m !! key_of p ctx); [reflexivity|].
    destruct (has_room _ m); reflexivity.
  - assert (Hpx : is_exit p = true) by (unfold is_exit; rewrite Hp; reflexivity).
    destruct (exit_cases p Hpx) as [Hu|[->|[fname ->]]].
    + rewrite fire_usdt_exit by exact Hu. rewrite Hu. simpl.
      destruct (m !! key_of p ctx) as [v|].
      * rewrite accumulates_not_return by (left; exact Hu). reflexivity.
      * destruct (has_room _ m); [rewrite accum_fresh|]; reflexivity.
    + rewrite fire_sys_exit.
      destruct (m !! key_of SysExit ctx); reflexivity.
    + rewrite fire_do_return.
      destruct (m !! key_of (DoReturn fname) ctx) as [v|]; [|reflexivity].
      simpl. destruct (startTime v =? 0); reflexivity.
Qed.

Lemma next_leaf_present (p : probe) (ctx : ctx_t) (v : value_t) (r r' : bool) :
  next_leaf p ctx (Some v) r = next_leaf p ctx (Some v) r'.
Proof. reflexivity. Qed.

Lemma fire_size (p : probe) (ctx : ctx_t) (m : table) :
  size (fire p ctx m) =
  if creates p && has_room (map_size p) m && bool_decide (m !! key_of p ctx = None)
  then S (size m) else size m.
Proof.
  rewrite fire_next_leaf. unfold next_leaf.
  destruct (m !! key_of p ctx) as [v|] eqn:Hk.
  - rewrite bool_decide_eq_false_2 by discriminate.
    rewrite andb_false_r.
    destruct (is_entry p); [|destruct (accumulates p v)];
      try reflexivity; apply map_size_insert_Some; eauto.
  - rewrite bool_decide_eq_true_2 by reflexivity. rewrite andb_true_r.
    destruct (creates p && has_room (map_size p) m); [|reflexivity].
    apply map_size_insert_None. exact Hk.
Qed.

Lemma fire_keeps_key (p : probe) (ctx : ctx_t) (m : table) (k : key_t) :
  is_Some (m !! k) -> is_Some (fire p ctx m !! k).
Proof.
  intros Hk. destruct (decide (k = key_of p ctx)) as [->|Hne].
  - rewrite fire_next_leaf.
    destruct (next_leaf p ctx _ _); [|exact Hk].
    rewrite lookup_insert_eq. eauto.
  - rewrite fire_other by exact Hne. exact Hk.
Qed.

(** X10: The keys of the map after one firing: the key of the probe is added
    when the probe is an entry or an exit of [usdt.c], the key is missing
    and the map has a free slot; in every other case the keys are the
    same. No probe removes a key, and [do_return] and [sys_exit] never add
    one. *)
Theorem fire_dom (p : probe) (ctx : ctx_t) (m : table) :
  dom (fire p ctx m) =
  if creates p && has_room (map_size p) m && bool_decide (m !! key_of p ctx = None)
  then {[ key_of p ctx ]} ∪ dom m else dom m.
Proof.
  rewrite fire_next_leaf. unfold next_leaf.
  destruct (m !! key_of p ctx) as [v|] eqn:Hk.
  - rewrite bool_decide_eq_false_2 by discriminate.
    rewrite andb_false_r.
    assert (Hin : forall v', dom (<[key_of p ctx := v']> m) = dom m).
    { intros v'. apply dom_insert_lookup_L. eauto. }
    destruct (is_entry p); [|destruct (accumulates p v)];
      try reflexivity; apply Hin.
  - rewrite bool_decide_eq_true_2 by reflexivity. rewrite andb_true_r.
    destruct (creates p && has_room (map_size p) m); [|reflexivity].
    apply dom_insert_L.
Qed.

(** X11: A key that is in the map is still there after any run, whatever the
    probes, the timestamps and the size of the map. *)
Theorem run_keeps_keys (evs : list event) (m : table) (k : key_t) :
  is_Some (m !! k) -> is_Some (run m evs !! k).
Proof.
  revert m. induction evs as [|e evs IH]; intros m Hk; [exact Hk|].
  rewrite run_cons. apply IH. apply fire_keeps_key. exact Hk.
Qed.

(** A key stored by a first call survives later traffic. *)
Lemma run_keeps_keys_witness :
  let m := fire (DoEnter name_A) (sample_ctx 100 7) ∅ in
  let k := key_of (DoEnter name_A) (sample_ctx 100 7) in
  is_Some (m !! k) /\
  is_Some (run m [ (SysEnter, sample_ctx 120 9); (DoReturn name_A, sample_ctx 50 7) ]
             !! k).
Proof.
  cbv zeta.
  assert (Hk : is_Some (fire (DoEnter name_A) (sample_ctx 100 7) ∅
                          !! key_of (DoEnter name_A) (sample_ctx 100 7))).
  { rewrite fire_entry_lookup by reflexivity.
    rewrite lookup_empty, has_room_empty_probe. eauto. }
  split; [exact Hk|].
  exact (run_keeps_keys _ _ _ Hk).
Defined.

(** X12: The map never outgrows [BPF_HASH]'s size: along a run of probes of one
    program, the number of keys never goes down and, once within the
    size of the map, stays within it. *)
Theorem run_within_capacity (cap : Z) (evs : list event) (m : table) :
  Forall (fun e => map_size (fst e) = cap) evs ->
  Z.of_nat (size m) <= cap ->
  (size m <= size (run m evs))%nat /\ Z.of_nat (size (run m evs)) <= cap.
Proof.
  intros Hall. revert m.
  induction Hall as [|[p ctx] evs Hp _ IH]; intros m Hm.
  - rewrite run_nil. split; [reflexivity | exact Hm].
  - simpl in Hp. rewrite run_cons. simpl fst; simpl snd.
    assert (Hstep : (size m <= size (fire p ctx m))%nat /\
                    Z.of_nat (size (fire p ctx m)) <= cap).
    { rewrite fire_size. unfold has_room. rewrite Hp.
      destruct (Z.ltb_spec (Z.of_nat (size m)) cap) as [Hlt|Hge].
      - destruct (creates p && true && bool_decide (m !! key_of p ctx = None));
          lia.
      - rewrite andb_false_r. simpl. lia. }
    destruct Hstep as [Hge Hle]. destruct (IH _ Hle) as [Hge' Hle'].
    split; [lia | exact Hle'].
Qed.

(** Three probes of [ebpf.c] on the empty map. *)
Lemma run_within_capacity_witness :
  let evs : list event :=
    [ (DoEnter name_A, sample_ctx 100 7); (SysEnter, sample_ctx 120 9);
      (DoReturn name_A, sample_ctx 150 7) ] in
  (size (∅ : table) <= size (run ∅ evs))%nat /\
  Z.of_nat (size (run ∅ evs)) <= Ebpf.max_entries.
Proof.
  cbv zeta. apply run_within_capacity.
  - repeat constructor.
  - rewrite map_size_empty. vm_compute. discriminate.
Defined.

Lemma fire_creates_only (p : probe) (ctx : ctx_t) (m : table) :
  m !! key_of p ctx = None -> creates p = false -> fire p ctx m = m.
Proof.
  intros Hk Hc. rewrite fire_next_leaf, Hk. unfold next_leaf.
  rewrite Hc. reflexivity.
Qed.

(** X13: No key comes out of nowhere: a key found after a run was in the
    map before the run or was built by an event of the run that can
    insert, an entry or an exit of [usdt.c]. *)
Theorem run_key_provenance (evs : list event) (m : table) (k : key_t) :
  is_Some (run m evs !! k) ->
  is_Some (m !! k) \/
  Exists (fun e => creates (fst e) = true /\ key_of (fst e) (snd e) = k) evs.
Proof.
  revert m. induction evs as [|[p ctx] evs IH]; intros m Hk.
  - left. exact Hk.
  - rewrite run_cons in Hk. simpl fst in Hk; simpl snd in Hk.
    destruct (IH _ Hk) as [Hfire|Hlater].
    + destruct (decide (k = key_of p ctx)) as [->|Hne].
      * destruct (m !! key_of p ctx) as [v|] eqn:Hm; [left; eauto|].
        destruct (creates p) eqn:Hc.
        -- right. apply Exists_cons_hd. split; [exact Hc | reflexivity].
        -- rewrite (fire_creates_only p ctx m Hm Hc), Hm in Hfire.
           left. exact Hfire.
      * rewrite fire_other in Hfire by exact Hne. left. exact Hfire.
    + right. apply Exists_cons_tl. exact Hlater.
Qed.

(** After an exit of [ebpf.c] alone, the map is still empty; after an
    entry, its key is there. *)
Lemma run_key_provenance_witness :
  let evs : list event :=
    [ (DoReturn name_A, sample_ctx 90 7); (DoEnter name_A, sample_ctx 100 7) ] in
  let k := key_of (DoEnter name_A) (sample_ctx 100 7) in
  is_Some (run ∅ evs !! k) /\
  (is_Some ((∅ : table) !! k) \/
   Exists (fun e => creates (fst e) = true /\ key_of (fst e) (snd e) = k) evs).
Proof.
  cbv zeta.
  assert (Hk : is_Some (run ∅ [ (DoReturn name_A, sample_ctx 90 7);
                                (DoEnter name_A, sample_ctx 100 7) ]
                          !! key_of (DoEnter name_A) (sample_ctx 100 7))).
  { vm_compute. eauto. }
  split; [exact Hk|].
  exact (run_key_provenance _ _ _ Hk).
Defined.

(** ** Independence of the keys *)

Lemma fire_on_present (p : probe) (ctx : ctx_t) (m1 m2 : table) :
  is_Some (m1 !! key_of p ctx) ->
  m1 !! key_of p ctx = m2 !! key_of p ctx ->
  fire p ctx m1 !! key_of p ctx = fire p ctx m2 !! key_of p ctx.
Proof.
  intros [v Hv] Heq. rewrite !fire_next_leaf. rewrite <- Heq, Hv.
  rewrite (next_leaf_present p ctx v (has_room (map_size p) m2)
             (has_room (map_size p) m1)).
  destruct (next_leaf p ctx (Some v) _).
  - rewrite !lookup_insert_eq. reflexivity.
  - rewrite <- Heq. reflexivity.
Qed.

(** X14: Once a key is in the map, what a run leaves under it depends on the
    events of that key alone: the events on other keys can be taken out
    of the run, whatever they do to the rest of the map. *)
Theorem run_depends_on_own_events (evs : list event) (m : table) (k : key_t) :
  is_Some (m !! k) ->
  run m evs !! k = run m (List.filter (on_key k) evs) !! k.
Proof.
  intros Hk.
  assert (Hgen : forall m1 m2 : table,
            is_Some (m1 !! k) -> m1 !! k = m2 !! k ->
            run m1 evs !! k = run m2 (List.filter (on_key k) evs) !! k).
  { induction evs as [|[p ctx] evs IH]; intros m1 m2 H1 Heq; [exact Heq|].
    rewrite run_cons. simpl List.filter. unfold on_key at 1.
    simpl fst; simpl snd. case_bool_decide as Hkey.
    - rewrite run_cons. simpl fst; simpl snd. subst k.
      apply IH.
      + apply fire_keeps_key. exact H1.
      + apply fire_on_present; assumption.
    - apply IH.
      + apply fire_keeps_key. exact H1.
      + rewrite fire_other by congruence. exact Heq. }
  apply Hgen; [exact Hk | reflexivity].
Qed.

(** A call of [A] with a syscall of another thread in between. *)
Lemma run_depends_on_own_events_witness :
  let m := fire (DoEnter name_A) (sample_ctx 100 7) ∅ in
  let k := key_of (DoEnter name_A) (sample_ctx 100 7) in
  let evs : list event :=
    [ (SysEnter, sample_ctx 120 9); (DoReturn name_A, sample_ctx 150 7) ] in
  is_Some (m !! k) /\
  run m evs !! k = run m [ (DoReturn name_A, sample_ctx 150 7) ] !! k.
Proof.
  cbv zeta.
  assert (Hk : is_Some (fire (DoEnter name_A) (sample_ctx 100 7) ∅
                          !! key_of (DoEnter name_A) (sample_ctx 100 7))).
  { rewrite fire_entry_lookup by reflexivity.
    rewrite lookup_empty, has_room_empty_probe. eauto. }
  split; [exact Hk|].
  exact (run_depends_on_own_events
           [ (SysEnter, sample_ctx 120 9); (DoReturn name_A, sample_ctx 150 7) ]
           _ _ Hk).
Defined.

Lemma fire_room_kept (p : probe) (ctx : ctx_t) (m : table) (cap : Z) :
  Z.of_nat (size m) + 2 <= cap ->
  has_room cap m = true /\ has_room cap (fire p ctx m) = true.
Proof.
  intros Hcap. unfold has_room. rewrite fire_size.
  split; apply Z.ltb_lt;
    [|destruct (creates p && _ && _)]; lia.
Qed.

Lemma next_leaf_after_other (p q : probe) (ctx cq : ctx_t) (m : table) :
  key_of p ctx <> key_of q cq ->
  is_Some (m !! key_of p ctx) \/ Z.of_nat (size m) + 2 <= map_size p ->
  next_leaf p ctx (fire q cq m !! key_of p ctx)
            (has_room (map_size p) (fire q cq m))
  = next_leaf p ctx (m !! key_of p ctx) (has_room (map_size p) m).
Proof.
  intros Hne Hok. rewrite fire_other by exact Hne.
  destruct Hok as [[v Hv]|Hcap].
  - rewrite Hv. apply next_leaf_present.
  - destruct (fire_room_kept q cq m _ Hcap) as [-> ->]. reflexivity.
Qed.

(** X15: Firings on different keys commute, as long as neither depends on the
    last free slot: each key is in the map already or the map has two
    free slots. *)
Theorem fire_commute (p1 p2 : probe) (c1 c2 : ctx_t) (m : table) :
  key_of p1 c1 <> key_of p2 c2 ->
  is_Some (m !! key_of p1 c1) \/ Z.of_nat (size m) + 2 <= map_size p1 ->
  is_Some (m !! key_of p2 c2) \/ Z.of_nat (size m) + 2 <= map_size p2 ->
  fire p2 c2 (fire p1 c1 m) = fire p1 c1 (fire p2 c2 m).
Proof.
  intros Hne H1 H2.
  rewrite (fire_next_leaf p2 c2 (fire p1 c1 m)).
  rewrite (fire_next_leaf p1 c1 (fire p2 c2 m)).
  rewrite next_leaf_after_other by (assumption || congruence).
  rewrite next_leaf_after_other by (assumption || congruence).
  rewrite (fire_next_leaf p1 c1 m), (fire_next_leaf p2 c2 m).
  destruct (next_leaf p1 c1 _ _) as [v1|], (next_leaf p2 c2 _ _) as [v2|];
    try reflexivity.
  apply insert_insert_ne. congruence.
Qed.

(** Two threads entering [A] on the empty map, in either order. *)
Lemma fire_commute_witness :
  let p := DoEnter name_A in
  fire p (sample_ctx 105 9) (fire p (sample_ctx 100 7) ∅)
  = fire p (sample_ctx 100 7) (fire p (sample_ctx 105 9) ∅).
Proof.
  cbv zeta. apply fire_commute.
  - vm_compute. discriminate.
  - right. rewrite map_size_empty. vm_compute. discriminate.
  - right. rewrite map_size_empty. vm_compute. discriminate.
Defined.

(** X16: With one free slot left, two new keys compete: the probe that fires
    first gets the slot and the other event is dropped, so here the order
    decides what the map holds. *)
Theorem last_slot_first_served (p1 p2 : probe) (c1 c2 : ctx_t) (m : table) :
  creates p1 = true -> creates p2 = true ->
  map_size p1 = map_size p2 ->
  key_of p1 c1 <> key_of p2 c2 ->
  m !! key_of p1 c1 = None -> m !! key_of p2 c2 = None ->
  Z.of_nat (size m) + 1 = map_size p1 ->
  fire p2 c2 (fire p1 c1 m) = <[key_of p1 c1 := mkValue 1 (now c1) 0]> m /\
  fire p1 c1 (fire p2 c2 m) = <[key_of p2 c2 := mkValue 1 (now c2) 0]> m /\
  fire p2 c2 (fire p1 c1 m) <> fire p1 c1 (fire p2 c2 m).
Proof.
  intros Hc1 Hc2 Hcap Hne Hk1 Hk2 Hsize.
  assert (Hfirst : forall (p q : probe) (c cq : ctx_t),
            creates p = true -> creates q = true ->
            key_of p c <> key_of q cq ->
            m !! key_of p c = None -> m !! key_of q cq = None ->
            Z.of_nat (size m) + 1 = map_size p -> map_size q = map_size p ->
            fire q cq (fire p c m) = <[key_of p c := mkValue 1 (now c) 0]> m).
  { intros p q c cq Hp Hq Hpq Hkp Hkq Hsz Hqp.
    assert (Hfp : fire p c m = <[key_of p c := mkValue 1 (now c) 0]> m).
    { rewrite fire_next_leaf, Hkp. unfold next_leaf, has_room. rewrite Hp.
      replace (Z.of_nat (size m) <? map_size p) with true
        by (symmetry; apply Z.ltb_lt; lia). reflexivity. }
    rewrite (fire_next_leaf q cq), Hfp.
    rewrite lookup_insert_ne by exact Hpq. rewrite Hkq.
    unfold next_leaf, has_room.
    rewrite map_size_insert_None by exact Hkp.
    replace (Z.of_nat (S (size m)) <? map_size q) with false
      by (symmetry; apply Z.ltb_ge; lia).
    rewrite andb_false_r. reflexivity. }
  rewrite (Hfirst p1 p2 c1 c2) by (assumption || congruence).
  rewrite (Hfirst p2 p1 c2 c1) by (assumption || congruence || lia).
  split; [reflexivity|]. split; [reflexivity|].
  intros Heq. apply (f_equal (fun t : gmap (list Z) value_t => t !! key_of p1 c1)) in Heq.
  rewrite lookup_insert_eq, lookup_insert_ne, Hk1 in Heq by congruence.
  discriminate Heq.
Qed.

(** Two new markers meet the last slot of the map of [usdt.c]. *)
Lemma last_slot_first_served_witness :
  let c1 := sample_ctx 100 5000 in
  let c2 := sample_ctx 105 5001 in
  Z.of_nat (size nearly_full_table) + 1 = map_size UsdtEnter /\
  fire UsdtEnter c2 (fire UsdtEnter c1 nearly_full_table)
  = <[key_of UsdtEnter c1 := mkValue 1 (now c1) 0]> nearly_full_table.
Proof.
  cbv zeta.
  assert (Hsize : Z.of_nat (size nearly_full_table) + 1 = map_size UsdtEnter)
    by (vm_compute; reflexivity).
  assert (Hk1 : nearly_full_table !! key_of UsdtEnter (sample_ctx 100 5000) = None)
    by (vm_compute; reflexivity).
  assert (Hk2 : nearly_full_table !! key_of UsdtEnter (sample_ctx 105 5001) = None)
    by (vm_compute; reflexivity).
  assert (Hne : key_of UsdtEnter (sample_ctx 100 5000)
                <> key_of UsdtEnter (sample_ctx 105 5001))
    by (vm_compute; discriminate).
  split; [exact Hsize|].
  exact (proj1 (last_slot_first_served UsdtEnter UsdtEnter _ _ nearly_full_table
                  eq_refl eq_refl eq_refl Hne Hk1 Hk2 Hsize)).
Defined.

(** ** A sequence of calls *)

Lemma u64_add_outer (a b : Z) : u64 (u64 a + b) = u64 (a + b).
Proof. unfold u64. apply Zplus_mod_idemp_l. Qed.

Lemma accumulates_start (p : probe) (v w : value_t) :
  startTime v = startTime w -> accumulates p v = accumulates p w.
Proof. intros Hs. destruct p; simpl; rewrite ?Hs; reflexivity. Qed.

Lemma fire_exit_accumulates (p : probe) (ctx : ctx_t) (m : table) (v : value_t) :
  is_exit p = true ->
  m !! key_of p ctx = Some v ->
  accumulates p v = true ->
  fire p ctx m !! key_of p ctx = Some (accum (now ctx) v).
Proof.
  intros Hp Hk Ha. rewrite (fire_exit_lookup p ctx m v Hp Hk).
  destruct p; try reflexivity. simpl in Ha.
  destruct (startTime v =? 0); [discriminate | reflexivity].
Qed.

(** Calls on a key that is in the map with fields in range. *)
Lemma run_pairs_present (pe px : probe) (k : key_t)
    (calls : list (ctx_t * ctx_t)) :
  is_entry pe = true -> is_exit px = true ->
  Forall (fun cc => key_of pe (fst cc) = k /\ key_of px (snd cc) = k /\
                    accumulates px (mkValue 0 (now (fst cc)) 0) = true) calls ->
  forall (m : table) (v : value_t),
    m !! k = Some v ->
    0 <= counter v < 2 ^ 32 -> 0 <= cumLat v < 2 ^ 64 ->
    exists v', run m (pair_events pe px calls) !! k = Some v' /\
               counter v' = u32 (counter v + Z.of_nat (length calls)) /\
               cumLat v' = u64 (cumLat v + total_latency calls).
Proof.
  intros Hpe Hpx Hall.
  induction Hall as [|[c0 c1] calls (Hk0 & Hk1 & Hacc) _ IH]; intros m v Hm Hc Hl.
  - exists v. split; [exact Hm|]. simpl. rewrite !Z.add_0_r.
    split; symmetry; [apply Z.mod_small | apply u64_small]; assumption.
  - simpl in Hk0, Hk1, Hacc.
    change (pair_events pe px ((c0, c1) :: calls))
      with ((pe, c0) :: (px, c1) :: pair_events pe px calls).
    rewrite !run_cons. simpl fst; simpl snd.
    assert (H1 : fire pe c0 m !! k = Some (bump (now c0) v)).
    { rewrite <- Hk0 in Hm |- *. rewrite fire_entry_lookup by exact Hpe.
      rewrite Hm. reflexivity. }
    assert (H2 : fire px c1 (fire pe c0 m) !! k
                 = Some (accum (now c1) (bump (now c0) v))).
    { rewrite <- Hk1 in H1 |- *. apply fire_exit_accumulates; [exact Hpx|exact H1|].
      rewrite <- Hacc. apply accumulates_start. reflexivity. }
    destruct (IH _ _ H2) as (v' & Hv' & Hc' & Hl').
    { simpl. apply u32_range. }
    { simpl. apply u64_range. }
    exists v'. split; [exact Hv'|]. split.
    + rewrite Hc'. simpl counter. rewrite u32_succ. f_equal.
      rewrite length_cons. lia.
    + rewrite Hl'. simpl cumLat. simpl total_latency.
      rewrite u64_add_inner, u64_add_outer. f_equal.
      fold (total_latency calls). lia.
Qed.

(** X17: A sequence of [N >= 1] calls on one key, each an entry followed by
    its exit, the first entry being recorded and no entry of [do_enter]
    stamped 0: the key ends with its counter advanced by [N] modulo
    [2 ^ 32] and its [cumLat] advanced by the sum of the durations modulo
    [2 ^ 64]. *)
Theorem run_pairs_total (pe px : probe) (k : key_t)
    (calls : list (ctx_t * ctx_t)) (m : table) :
  is_entry pe = true -> is_exit px = true ->
  calls <> [] ->
  Forall (fun cc => key_of pe (fst cc) = k /\ key_of px (snd cc) = k /\
                    accumulates px (mkValue 0 (now (fst cc)) 0) = true) calls ->
  is_Some (m !! k) \/ has_room (map_size pe) m = true ->
  exists v', run m (pair_events pe px calls) !! k = Some v' /\
             counter v' = u32 (from_option counter 0 (m !! k)
                               + Z.of_nat (length calls)) /\
             cumLat v' = u64 (latency_of m k + total_latency calls).
Proof.
  intros Hpe Hpx Hne Hall Hrec.
  destruct calls as [|[c0 c1] calls]; [congruence|].
  apply Forall_cons in Hall as [(Hk0 & Hk1 & Hacc) Hall].
  simpl in Hk0, Hk1, Hacc.
  change (pair_events pe px ((c0, c1) :: calls))
    with ((pe, c0) :: (px, c1) :: pair_events pe px calls).
  rewrite !run_cons. simpl fst; simpl snd.
  destruct (entry_recorded pe c0 m k Hpe Hk0 Hrec) as (v1 & H1 & Hs1 & Hl1 & Hc1).
  assert (H2 : fire px c1 (fire pe c0 m) !! k = Some (accum (now c1) v1)).
  { rewrite <- Hk1 in H1 |- *. apply fire_exit_accumulates; [exact Hpx|exact H1|].
    rewrite <- Hacc. apply accumulates_start. exact Hs1. }
  destruct (run_pairs_present pe px k calls Hpe Hpx Hall _ _ H2)
    as (v' & Hv' & Hc' & Hl').
  { simpl. rewrite Hc1. apply u32_range. }
  { simpl. apply u64_range. }
  exists v'. split; [exact Hv'|]. split.
  - rewrite Hc'. simpl counter. rewrite Hc1, u32_succ. f_equal.
    rewrite length_cons. lia.
  - rewrite Hl'. simpl cumLat. simpl total_latency.
    rewrite u64_add_inner, u64_add_outer, Hs1, Hl1. f_equal.
    fold (total_latency calls). lia.
Qed.

(** Calls of [A] from 100 to 150 and from 200 to 260: twice, 110 ns. *)
Lemma run_pairs_total_witness :
  let calls := [ (sample_ctx 100 7, sample_ctx 150 7);
                 (sample_ctx 200 7, sample_ctx 260 7) ] in
  let k := key_of (DoEnter name_A) (sample_ctx 100 7) in
  exists v', run ∅ (pair_events (DoEnter name_A) (DoReturn name_A) calls) !! k
             = Some v' /\
             counter v' = 2 /\ cumLat v' = 110.
Proof.
  cbv zeta.
  destruct (run_pairs_total (DoEnter name_A) (DoReturn name_A)
              (key_of (DoEnter name_A) (sample_ctx 100 7))
              [ (sample_ctx 100 7, sample_ctx 150 7);
                (sample_ctx 200 7, sample_ctx 260 7) ] ∅)
    as (v' & Hv' & Hc & Hl).
  - reflexivity.
  - reflexivity.
  - discriminate.
  - repeat constructor.
  - right. apply has_room_empty_probe.
  - exists v'. split; [exact Hv'|]. rewrite Hc, Hl.
    unfold latency_of. rewrite lookup_empty. split; reflexivity.
Defined.

(** ** What entries and exits move, along any run *)

(** X18: Exits never move [counter] and [startTime]: along a run in which every
    event on the key is an exit, whatever happens on the other keys, the
    key keeps both. *)
Theorem exits_keep_counter_and_start_run (evs : list event) (m : table)
    (k : key_t) (v : value_t) :
  Forall (fun e => key_of (fst e) (snd e) = k -> is_exit (fst e) = true) evs ->
  m !! k = Some v ->
  exists v', run m evs !! k = Some v' /\
             counter v' = counter v /\ startTime v' = startTime v.
Proof.
  intros Hall. revert m v.
  induction Hall as [|[p ctx] evs Hp _ IH]; intros m v Hm.
  - exists v. rewrite run_nil. auto.
  - simpl in Hp. rewrite run_cons. simpl fst; simpl snd.
    assert (Hstep : exists v1, fire p ctx m !! k = Some v1 /\
                               counter v1 = counter v /\
                               startTime v1 = startTime v).
    { destruct (decide (key_of p ctx = k)) as [Hk|Hne].
      - specialize (Hp Hk). subst k.
        rewrite (fire_exit_lookup p ctx m v Hp Hm).
        eexists. split; [reflexivity|].
        destruct p; try (split; reflexivity).
        destruct (startTime v =? 0); split; reflexivity.
      - exists v. rewrite fire_other by congruence. auto. }
    destruct Hstep as (v1 & H1 & Hc1 & Hs1).
    destruct (IH _ _ H1) as (v' & Hv' & Hc' & Hs').
    exists v'. split; [exact Hv'|]. split; congruence.
Qed.

(** A call started at 100: two returns and a syscall later, the key still
    says one call, started at 100. *)
Lemma exits_keep_counter_and_start_run_witness :
  let m := fire (DoEnter name_A) (sample_ctx 100 7) ∅ in
  let k := key_of (DoEnter name_A) (sample_ctx 100 7) in
  let evs : list event :=
    [ (DoReturn name_A, sample_ctx 150 7); (SysEnter, sample_ctx 160 7);
      (DoReturn name_A, sample_ctx 180 7) ] in
  m !! k = Some (mkValue 1 100 0) /\
  exists v', run m evs !! k = Some v' /\ counter v' = 1 /\ startTime v' = 100.
Proof.
  cbv zeta.
  assert (Hm : fire (DoEnter name_A) (sample_ctx 100 7) ∅
                 !! key_of (DoEnter name_A) (sample_ctx 100 7)
               = Some (mkValue 1 100 0)).
  { rewrite fire_entry_lookup by reflexivity.
    rewrite lookup_empty, has_room_empty_probe. reflexivity. }
  split; [exact Hm|].
  apply (exits_keep_counter_and_start_run
           [ (DoReturn name_A, sample_ctx 150 7); (SysEnter, sample_ctx 160 7);
             (DoReturn name_A, sample_ctx 180 7) ] _ _ (mkValue 1 100 0));
    [|exact Hm].
  repeat constructor; intros Hk; try reflexivity.
  exfalso. revert Hk. vm_compute. discriminate.
Defined.

(** X19: The counter of a key that is in the map counts the entries on that
    key and nothing else: after any run, whatever the exits, the other
    keys and the size of the map, it has advanced by the number of entry
    events on the key, modulo [2 ^ 32]. *)
Theorem counter_counts_entries (evs : list event) (m : table) (k : key_t)
    (v : value_t) :
  m !! k = Some v ->
  0 <= counter v < 2 ^ 32 ->
  exists v',
    run m evs !! k = Some v' /\
    counter v' =
    u32 (counter v
         + Z.of_nat (length (List.filter
                               (fun e => on_key k e && is_entry (fst e)) evs))).
Proof.
  revert m v. induction evs as [|[p ctx] evs IH]; intros m v Hm Hc.
  - exists v. rewrite run_nil. split; [exact Hm|].
    simpl. rewrite Z.add_0_r. symmetry. apply Z.mod_small. exact Hc.
  - rewrite run_cons. simpl List.filter. unfold on_key at 1.
    simpl fst; simpl snd.
    case_bool_decide as Hk; [destruct (is_entry p) eqn:Hp|]; simpl andb; cbv iota.
    + subst k.
      assert (H1 : fire p ctx m !! key_of p ctx = Some (bump (now ctx) v)).
      { rewrite fire_entry_lookup by exact Hp. rewrite Hm. reflexivity. }
      destruct (IH _ _ H1) as (v' & Hv' & Hc').
      { simpl. apply u32_range. }
      exists v'. split; [exact Hv'|]. rewrite Hc'. simpl counter.
      rewrite u32_succ. f_equal. rewrite length_cons. lia.
    + subst k.
      assert (Hpx : is_exit p = true) by (unfold is_exit; rewrite Hp; reflexivity).
      pose proof (fire_exit_lookup p ctx m v Hpx Hm) as H1.
      assert (Hcv : forall w, counter (match p with
                                       | DoReturn _ =>
                                           if startTime v =? 0 then v else accum w v
                                       | _ => accum w v
                                       end) = counter v).
      { intros w. destruct p; try reflexivity.
        destruct (startTime v =? 0); reflexivity. }
      destruct (IH _ _ H1) as (v' & Hv' & Hc').
      { rewrite Hcv. exact Hc. }
      exists v'. split; [exact Hv'|]. rewrite Hc', Hcv. reflexivity.
    + assert (H1 : fire p ctx m !! k = Some v).
      { rewrite fire_other by congruence. exact Hm. }
      destruct (IH _ _ H1 Hc) as (v' & Hv' & Hc').
      exists v'. split; [exact Hv'|]. exact Hc'.
Qed.

(** Two more entries of [A], a return and a syscall: three calls. *)
Lemma counter_counts_entries_witness :
  let m := fire (DoEnter name_A) (sample_ctx 100 7) ∅ in
  let k := key_of (DoEnter name_A) (sample_ctx 100 7) in
  let evs : list event :=
    [ (DoEnter name_A, sample_ctx 110 7); (DoReturn name_A, sample_ctx 150 7);
      (SysEnter, sample_ctx 160 7); (DoEnter name_A, sample_ctx 180 7) ] in
  m !! k = Some (mkValue 1 100 0) /\
  exists v', run m evs !! k = Some v' /\ counter v' = 3.
Proof.
  cbv zeta.
  assert (Hm : fire (DoEnter name_A) (sample_ctx 100 7) ∅
                 !! key_of (DoEnter name_A) (sample_ctx 100 7)
               = Some (mkValue 1 100 0)).
  { rewrite fire_entry_lookup by reflexivity.
    rewrite lookup_empty, has_room_empty_probe. reflexivity. }
  split; [exact Hm|].
  destruct (counter_counts_entries
              [ (DoEnter name_A, sample_ctx 110 7); (DoReturn name_A, sample_ctx 150 7);
                (SysEnter, sample_ctx 160 7); (DoEnter name_A, sample_ctx 180 7) ]
              _ _ (mkValue 1 100 0) Hm) as (v' & Hv' & Hc').
  - simpl. lia.
  - exists v'. split; [exact Hv'|]. rewrite Hc'. vm_compute. reflexivity.
Defined.
